(** * GeoRunner: the point-region quadtree of package [quadtree]

    A shallow embedding of the Go package [quadtree] (types [Point],
    [Boundary], [QuadTree]; functions [NewQuadTree], [Contains],
    [subdivide], [Insert], [Intersects], [Query], [queryRecursive],
    [Remove]) and the verification of its specification.

    Coordinates are Go [float64] values: they are modelled by Rocq's
    primitive binary64 floats, whose operations are the IEEE 754
    round-to-nearest-even ones that Go uses.  The methods on [*QuadTree]
    take the state of the node and give back the new one.  The tree holds
    its points by pointer and never writes to them: they are modelled by
    value.  The per-node mutex plays no role in a sequential run and is
    not modelled. *)

From Stdlib Require Import ZArith List Bool Lia Floats Permutation.
From Stdlib Require String.
Import ListNotations String.StringSyntax.

(** ** Ordering of binary64 values

    [SFcompare] orders the non-NaN values lexicographically on a key made
    of the sign class, the exponent and the mantissa. *)

Module F64.

Definition key (f : spec_float) : option (Z * Z * Z) :=
  match f with
  | S754_nan => None
  | S754_infinity true => Some (-2, 0, 0)%Z
  | S754_infinity false => Some (2, 0, 0)%Z
  | S754_zero _ => Some (0, 0, 0)%Z
  | S754_finite true m e => Some (-1, - e, - Z.pos m)%Z
  | S754_finite false m e => Some (1, e, Z.pos m)%Z
  end.

Definition lexlt (a b : Z * Z * Z) : Prop :=
  let '(a1, a2, a3) := a in
  let '(b1, b2, b3) := b in
  (a1 < b1 \/ (a1 = b1 /\ (a2 < b2 \/ (a2 = b2 /\ a3 < b3))))%Z.

Definition lexeq (a b : Z * Z * Z) : Prop :=
  let '(a1, a2, a3) := a in
  let '(b1, b2, b3) := b in
  (a1 = b1 /\ a2 = b2 /\ a3 = b3)%Z.

(** The key of the float [x]. *)
Definition fkey (x : float) : option (Z * Z * Z) := key (Prim2SF x).

(** The float 2, by which [subdivide] divides. *)
Definition two : spec_float := S754_finite false 4503599627370496 (-51).

(** The rank of a finite float among the finite floats of its sign: the
    exponent, then the mantissa. *)
Definition rank (f : spec_float) : Z :=
  match f with
  | S754_finite _ m e => ((e + 1075) * 2 ^ 53 + Z.pos m)%Z
  | _ => 0%Z
  end.

(** The three comparisons, read on keys. *)
Definition onKeys (R : Z * Z * Z -> Z * Z * Z -> Prop) (x y : float) : Prop :=
  match fkey x, fkey y with
  | Some a, Some b => R a b
  | _, _ => False
  end.

End F64.

(** ** Data model *)

(** The payload of a point is a Go [interface{}]; the package only compares
    it with [==].  Modelled are the nil interface and dynamic values of
    three comparable types: strings (the driver identifiers that the
    callers store), integers and [float64].  Two interface values are
    [==] when their dynamic types are the same and their values are [==]
    at that type; at [float64] this is the comparison of floats, which
    equates the two zeros and does not equate a NaN with itself.  A
    payload of a type that is not comparable (a slice, a map, a function),
    on which [==] panics, is outside the model. *)
Inductive Payload : Type :=
| PNil
| PString (s : String.string)
| PInt (n : Z)
| PFloat (f : float).

Definition Payload_eqb (a b : Payload) : bool :=
  match a, b with
  | PNil, PNil => true
  | PString s, PString t => String.eqb s t
  | PInt n, PInt m => Z.eqb n m
  | PFloat f, PFloat g => PrimFloat.eqb f g
  | _, _ => false
  end.

Module Point.
Record t : Type := mk { X : float; Y : float; Data : Payload }.
End Point.

Module Boundary.
Record t : Type := mk { X : float; Y : float; Width : float; Height : float }.
End Boundary.

(** A node.  Go keeps four nullable child pointers that [subdivide] sets
    together, and every method tests [northWest] only: a node without
    children is a [Leaf], one with children a [Quad].  Both keep the
    [points] field. *)
Inductive QuadTree : Type :=
| Leaf (boundary : Boundary.t) (capacity : Z) (points : list Point.t)
| Quad (boundary : Boundary.t) (capacity : Z) (points : list Point.t)
       (northWest northEast southWest southEast : QuadTree).

Definition boundary (qt : QuadTree) : Boundary.t :=
  match qt with Leaf b _ _ | Quad b _ _ _ _ _ _ => b end.

Definition capacity (qt : QuadTree) : Z :=
  match qt with Leaf _ c _ | Quad _ c _ _ _ _ _ => c end.

Definition points (qt : QuadTree) : list Point.t :=
  match qt with Leaf _ _ pts | Quad _ _ pts _ _ _ _ => pts end.

Definition isLeaf (qt : QuadTree) : bool :=
  match qt with Leaf _ _ _ => true | Quad _ _ _ _ _ _ _ => false end.

(** ** Operations *)

(** Go's [a >= b] on floats. *)
Definition geb (a b : float) : bool := (b <=? a)%float.

Definition NewQuadTree (boundary : Boundary.t) (capacity : Z) : QuadTree :=
  let capacity := if (capacity <? 1)%Z then 1%Z else capacity in
  Leaf boundary capacity [].

Definition Contains (b : Boundary.t) (p : Point.t) : bool :=
  geb (Point.X p) (Boundary.X b - Boundary.Width b) &&
  (Point.X p <? Boundary.X b + Boundary.Width b)%float &&
  geb (Point.Y p) (Boundary.Y b - Boundary.Height b) &&
  (Point.Y p <? Boundary.Y b + Boundary.Height b)%float.

(** The boundaries of the four children, in the order NW, NE, SW, SE. *)
Definition childBoundaries (b : Boundary.t)
  : Boundary.t * Boundary.t * Boundary.t * Boundary.t :=
  let childWidth := (Boundary.Width b / 2)%float in
  let childHeight := (Boundary.Height b / 2)%float in
  let centerX := Boundary.X b in
  let centerY := Boundary.Y b in
  (Boundary.mk (centerX - childWidth) (centerY + childHeight) childWidth childHeight,
   Boundary.mk (centerX + childWidth) (centerY + childHeight) childWidth childHeight,
   Boundary.mk (centerX - childWidth) (centerY - childHeight) childWidth childHeight,
   Boundary.mk (centerX + childWidth) (centerY - childHeight) childWidth childHeight).

(** [subdivide] turns a node into one with four fresh children; the
    bucket is left as it is. *)
Definition subdivide (qt : QuadTree) : QuadTree :=
  let '(nwBoundary, neBoundary, swBoundary, seBoundary) :=
    childBoundaries (boundary qt) in
  Quad (boundary qt) (capacity qt) (points qt)
       (NewQuadTree nwBoundary (capacity qt))
       (NewQuadTree neBoundary (capacity qt))
       (NewQuadTree swBoundary (capacity qt))
       (NewQuadTree seBoundary (capacity qt)).

(** The result of a call that may exceed the recursion budget. *)
Definition result (A : Type) : Type := option A.

(** The cascade [if qt.northWest.Insert(p) ...; if qt.northEast.Insert(p)
    ...] that [Insert] runs on the children of a node, with [ins] the
    recursive call.  It answers whether some child took the point. *)
Definition insertChildren (ins : QuadTree -> Point.t -> result (bool * QuadTree))
    (qt : QuadTree) (p : Point.t) : result (bool * QuadTree) :=
  match qt with
  | Leaf _ _ _ => Some (false, qt)
  | Quad b c pts nw ne sw se =>
    match ins nw p with
    | None => None
    | Some (true, nw') => Some (true, Quad b c pts nw' ne sw se)
    | Some (false, nw') =>
      match ins ne p with
      | None => None
      | Some (true, ne') => Some (true, Quad b c pts nw' ne' sw se)
      | Some (false, ne') =>
        match ins sw p with
        | None => None
        | Some (true, sw') => Some (true, Quad b c pts nw' ne' sw' se)
        | Some (false, sw') =>
          match ins se p with
          | None => None
          | Some (r, se') => Some (r, Quad b c pts nw' ne' sw' se')
          end
        end
      end
    end
  end.

(** The redistribution loop [for _, pt := range oldPoints]: a point that
    no child takes is not put anywhere. *)
Fixpoint redistribute (ins : QuadTree -> Point.t -> result (bool * QuadTree))
    (qt : QuadTree) (oldPoints : list Point.t) : result QuadTree :=
  match oldPoints with
  | [] => Some qt
  | pt :: rest =>
    match insertChildren ins qt pt with
    | None => None
    | Some (_, qt') => redistribute ins qt' rest
    end
  end.

Definition clearPoints (qt : QuadTree) : QuadTree :=
  match qt with
  | Leaf b c _ => Leaf b c []
  | Quad b c _ nw ne sw se => Quad b c [] nw ne sw se
  end.

(** [Insert]: the new state of the node and the returned boolean.  The
    recursion of the source is not structural (a leaf creates the children
    it then descends into), so it is bounded by [fuel], the depth of nested
    calls; [None] says the budget was exceeded. *)
Fixpoint Insert (fuel : nat) (qt : QuadTree) (p : Point.t)
  : result (bool * QuadTree) :=
  match fuel with
  | O => None
  | S fuel' =>
    if negb (Contains (boundary qt) p) then Some (false, qt)
    else
      match qt with
      | Quad _ _ _ _ _ _ _ => insertChildren (Insert fuel') qt p
      | Leaf b c pts =>
        let qt1 := Leaf b c (pts ++ [p]) in
        if (Z.of_nat (length (points qt1)) >? capacity qt1)%Z then
          let qt2 := subdivide qt1 in
          let oldPoints := points qt2 in
          match redistribute (Insert fuel') (clearPoints qt2) oldPoints with
          | None => None
          | Some qt3 => Some (true, qt3)
          end
        else Some (true, qt1)
      end
  end.

Definition Intersects (b other : Boundary.t) : bool :=
  let bMinX := (Boundary.X b - Boundary.Width b)%float in
  let bMaxX := (Boundary.X b + Boundary.Width b)%float in
  let bMinY := (Boundary.Y b - Boundary.Height b)%float in
  let bMaxY := (Boundary.Y b + Boundary.Height b)%float in
  let otherMinX := (Boundary.X other - Boundary.Width other)%float in
  let otherMaxX := (Boundary.X other + Boundary.Width other)%float in
  let otherMinY := (Boundary.Y other - Boundary.Height other)%float in
  let otherMaxY := (Boundary.Y other + Boundary.Height other)%float in
  if geb bMinX otherMaxX then false
  else if (bMaxX <=? otherMinX)%float then false
  else if geb bMinY otherMaxY then false
  else if (bMaxY <=? otherMinY)%float then false
  else true.

(** The leaf loop of [queryRecursive]. *)
Fixpoint scanPoints (rangeRect : Boundary.t) (pts found : list Point.t)
  : list Point.t :=
  match pts with
  | [] => found
  | p :: rest =>
    scanPoints rangeRect rest
      (if Contains rangeRect p then found ++ [p] else found)
  end.

(** [queryRecursive] is a method on the node pointer with the accumulator
    passed by pointer: it takes and gives back both states. *)
Fixpoint queryRecursive (qt : QuadTree) (rangeRect : Boundary.t)
    (found : list Point.t) : QuadTree * list Point.t :=
  match qt with
  | Leaf b c pts =>
    if negb (Intersects b rangeRect) then (qt, found)
    else (Leaf b c pts, scanPoints rangeRect pts found)
  | Quad b c pts nw ne sw se =>
    if negb (Intersects b rangeRect) then (qt, found)
    else
      let '(nw', found) := queryRecursive nw rangeRect found in
      let '(ne', found) := queryRecursive ne rangeRect found in
      let '(sw', found) := queryRecursive sw rangeRect found in
      let '(se', found) := queryRecursive se rangeRect found in
      (Quad b c pts nw' ne' sw' se', found)
  end.

Definition Query (qt : QuadTree) (rangeRect : Boundary.t)
  : QuadTree * list Point.t :=
  queryRecursive qt rangeRect [].

(** The test [pt.Data == p.Data && pt.X == p.X && pt.Y == p.Y]. *)
Definition exactMatch (pt p : Point.t) : bool :=
  Payload_eqb (Point.Data pt) (Point.Data p) &&
  (Point.X pt =? Point.X p)%float &&
  (Point.Y pt =? Point.Y p)%float.

(** The scan for [foundIndex], from index [i] on; [-1] when no entry
    matches. *)
Fixpoint findIndex (p : Point.t) (pts : list Point.t) (i : Z) : Z :=
  match pts with
  | [] => (-1)%Z
  | pt :: rest => if exactMatch pt p then i else findIndex p rest (i + 1)%Z
  end.

Fixpoint setAt (i : nat) (x : Point.t) (l : list Point.t) : list Point.t :=
  match l, i with
  | [], _ => []
  | _ :: l', O => x :: l'
  | y :: l', S i' => y :: setAt i' x l'
  end.

(** Swap and pop: [points[i] = points[len-1]; points = points[:len-1]]. *)
Definition swapPop (i : nat) (l : list Point.t) : list Point.t :=
  match nth_error l (length l - 1) with
  | Some lastPt => removelast (setAt i lastPt l)
  | None => l
  end.

Fixpoint Remove (qt : QuadTree) (p : Point.t) : bool * QuadTree :=
  match qt with
  | Leaf b c pts =>
    if negb (Contains b p) then (false, qt)
    else
      let foundIndex := findIndex p pts 0 in
      if (foundIndex =? -1)%Z then (false, qt)
      else (true, Leaf b c (swapPop (Z.to_nat foundIndex) pts))
  | Quad b c pts nw ne sw se =>
    if negb (Contains b p) then (false, qt)
    else
      let '(r, nw') := Remove nw p in
      if r then (true, Quad b c pts nw' ne sw se)
      else
        let '(r, ne') := Remove ne p in
        if r then (true, Quad b c pts nw' ne' sw se)
        else
          let '(r, sw') := Remove sw p in
          if r then (true, Quad b c pts nw' ne' sw' se)
          else
            let '(r, se') := Remove se p in
            (r, Quad b c pts nw' ne' sw' se')
  end.

(** ** Contents, shape and reachable states *)

(** Every entry of every bucket, the internal ones included. *)
Fixpoint allPoints (qt : QuadTree) : list Point.t :=
  match qt with
  | Leaf _ _ pts => pts
  | Quad _ _ pts nw ne sw se =>
    pts ++ allPoints nw ++ allPoints ne ++ allPoints sw ++ allPoints se
  end.

(** The trees a sequential client can hold: built by [NewQuadTree] and
    changed by calls of [Insert] that returned, [Remove] and [Query]. *)
Inductive reachable : QuadTree -> Prop :=
| reach_new (b : Boundary.t) (c : Z) : reachable (NewQuadTree b c)
| reach_insert (qt qt' : QuadTree) (fuel : nat) (p : Point.t) (r : bool) :
    reachable qt -> Insert fuel qt p = Some (r, qt') -> reachable qt'
| reach_remove (qt : QuadTree) (p : Point.t) :
    reachable qt -> reachable (snd (Remove qt p))
| reach_query (qt : QuadTree) (rangeRect : Boundary.t) :
    reachable qt -> reachable (fst (Query qt rangeRect)).

(** The edges of a boundary, as [Contains] and [Intersects] compute them. *)
Definition minX (b : Boundary.t) : float := (Boundary.X b - Boundary.Width b)%float.
Definition maxX (b : Boundary.t) : float := (Boundary.X b + Boundary.Width b)%float.
Definition minY (b : Boundary.t) : float := (Boundary.Y b - Boundary.Height b)%float.
Definition maxY (b : Boundary.t) : float := (Boundary.Y b + Boundary.Height b)%float.

Definition within (b : Boundary.t) (l : list Point.t) : Prop :=
  Forall (fun p => Contains b p = true) l.

(** What [NewQuadTree], [Insert] and [Remove] maintain. *)
Fixpoint inv (qt : QuadTree) : Prop :=
  match qt with
  | Leaf b c pts =>
    (1 <= c)%Z /\ (Z.of_nat (length pts) <= c)%Z /\ within b pts
  | Quad b c pts nw ne sw se =>
    (1 <= c)%Z /\ pts = [] /\
    (boundary nw, boundary ne, boundary sw, boundary se) = childBoundaries b /\
    (capacity nw = c /\ capacity ne = c /\ capacity sw = c /\ capacity se = c) /\
    within b (allPoints nw ++ allPoints ne ++ allPoints sw ++ allPoints se) /\
    inv nw /\ inv ne /\ inv sw /\ inv se
  end.

(** Every leaf holds at most [cap] entries and every internal bucket is
    empty. *)
Fixpoint bucketsBounded (cap : Z) (qt : QuadTree) : Prop :=
  match qt with
  | Leaf _ _ pts => (Z.of_nat (length pts) <= cap)%Z
  | Quad _ _ pts nw ne sw se =>
    pts = [] /\ bucketsBounded cap nw /\ bucketsBounded cap ne /\
    bucketsBounded cap sw /\ bucketsBounded cap se
  end.

(** [l1] is [l2] with some entries left out, order aside. *)
Definition submset (l1 l2 : list Point.t) : Prop :=
  exists dropped, Permutation (l1 ++ dropped) l2.

(** The number of entries that [Remove p] would accept. *)
Definition matchCount (p : Point.t) (l : list Point.t) : nat :=
  length (filter (fun e => exactMatch e p) l).

(** The number of children of [b] whose [Contains] accepts [p]. *)
Definition childHits (b : Boundary.t) (p : Point.t) : nat :=
  let '(nw, ne, sw, se) := childBoundaries b in
  length (filter (fun c => Contains c p) [nw; ne; sw; se]).

(** The number of leaves whose boundary [Contains] [p]. *)
Fixpoint leafHits (p : Point.t) (qt : QuadTree) : nat :=
  match qt with
  | Leaf b _ _ => if Contains b p then 1 else 0
  | Quad _ _ _ nw ne sw se =>
    leafHits p nw + leafHits p ne + leafHits p sw + leafHits p se
  end.

(** The subdivision of [b] is exact: rounding moved no edge of a child,
    so that the children's edges are the parent's edges and centre lines,
    which lie in order. *)
Definition exactSplit (b : Boundary.t) : bool :=
  let '(nw, ne, sw, se) := childBoundaries b in
  (minX nw =? minX b)%float && (maxX nw =? Boundary.X b)%float &&
  (minX ne =? Boundary.X b)%float && (maxX ne =? maxX b)%float &&
  (minY sw =? minY b)%float && (maxY sw =? Boundary.Y b)%float &&
  (minY nw =? Boundary.Y b)%float && (maxY nw =? maxY b)%float &&
  (minX b <=? Boundary.X b)%float && (Boundary.X b <=? maxX b)%float &&
  (minY b <=? Boundary.Y b)%float && (Boundary.Y b <=? maxY b)%float.

Fixpoint exactTree (qt : QuadTree) : bool :=
  match qt with
  | Leaf _ _ _ => true
  | Quad b _ _ nw ne sw se =>
    exactSplit b && exactTree nw && exactTree ne && exactTree sw && exactTree se
  end.

(** [bounded n b]: a leaf with boundary [b] answers [Insert] within [n]
    nested calls, because [b] accepts no point or because its four
    children are bounded by [n - 1]. *)
Inductive bounded : nat -> Boundary.t -> Prop :=
| bounded_dead (n : nat) (b : Boundary.t) :
    (forall p, Contains b p = false) -> bounded (S n) b
| bounded_split (n : nat) (b : Boundary.t) :
    (forall c, In c (let '(nw, ne, sw, se) := childBoundaries b in [nw; ne; sw; se]) ->
               bounded n c) ->
    bounded (S n) b.

(** [deep n qt]: [n] nested calls are enough for [Insert] on [qt]. *)
Fixpoint deep (n : nat) (qt : QuadTree) {struct qt} : Prop :=
  match qt with
  | Leaf b _ _ => bounded n b
  | Quad _ _ _ nw ne sw se =>
    match n with
    | O => False
    | S n' => deep n' nw /\ deep n' ne /\ deep n' sw /\ deep n' se
    end
  end.

(** The statement of the specification that a point on the upper edge of
    a node is accepted by the node and lost when the node subdivides. *)
Definition upperEdgeLoss : Prop :=
  exists (b : Boundary.t) (c : Z) (pts : list Point.t) (p q : Point.t)
         (fuel : nat) (qt' : QuadTree),
    In p (pts ++ [q]) /\
    Contains b p = true /\
    ((Point.X p =? maxX b)%float = true \/ (Point.Y p =? maxY b)%float = true) /\
    Insert fuel (Leaf b c pts) q = Some (true, qt') /\
    isLeaf qt' = false /\
    childHits b p = 0%nat /\
    ~ In p (allPoints qt').

(** The same loss without the condition on the edge. *)
Definition roundingLoss : Prop :=
  exists (b : Boundary.t) (c : Z) (pts : list Point.t) (p q : Point.t)
         (fuel : nat) (qt' : QuadTree),
    In p (pts ++ [q]) /\
    Contains b p = true /\
    Insert fuel (Leaf b c pts) q = Some (true, qt') /\
    isLeaf qt' = false /\
    childHits b p = 0%nat /\
    ~ In p (allPoints qt').

(** ** Vocabulary of the proofs *)

(** [Contains] on one axis: [lo <= x < hi]. *)
Definition between (lo hi x : float) : bool := geb x lo && (x <? hi)%float.

(** The four child slots. *)
Inductive quadrant : Type := NW | NE | SW | SE.

Definition child (k : quadrant) (qt : QuadTree) : QuadTree :=
  match qt with
  | Leaf _ _ _ => qt
  | Quad _ _ _ nw ne sw se =>
    match k with NW => nw | NE => ne | SW => sw | SE => se end
  end.

Definition setChild (k : quadrant) (qt t : QuadTree) : QuadTree :=
  match qt with
  | Leaf _ _ _ => qt
  | Quad b c pts nw ne sw se =>
    match k with
    | NW => Quad b c pts t ne sw se
    | NE => Quad b c pts nw t sw se
    | SW => Quad b c pts nw ne t se
    | SE => Quad b c pts nw ne sw t
    end
  end.

(** What a call [Insert p] that answered [r] has done to the node. *)
Record insPost (qt : QuadTree) (p : Point.t) (r : bool) (qt' : QuadTree)
  : Prop := {
  post_inv : inv qt';
  post_boundary : boundary qt' = boundary qt;
  post_capacity : capacity qt' = capacity qt;
  post_false : r = false -> qt' = qt;
  post_true : r = true -> Contains (boundary qt) p = true;
  post_points :
    submset (allPoints qt') (if r then p :: allPoints qt else allPoints qt);
  post_exact : exactTree qt' = true -> exactTree qt = true;
  post_leaf : isLeaf qt = false -> isLeaf qt' = false
}.

Definition insSpec (ins : QuadTree -> Point.t -> result (bool * QuadTree))
  : Prop :=
  forall qt p r qt', inv qt -> ins qt p = Some (r, qt') -> insPost qt p r qt'.

(** A call on a node that contains [p], whose resulting subtree is
    exactly subdivided, stores [p] and loses nothing. *)
Definition insExact (ins : QuadTree -> Point.t -> result (bool * QuadTree))
  : Prop :=
  forall qt p r qt',
    inv qt -> exactTree qt' = true -> Contains (boundary qt) p = true ->
    ins qt p = Some (r, qt') ->
    r = true /\ Permutation (allPoints qt') (p :: allPoints qt).

(** What a call [Remove p] that answered [r] has done to the node. *)
Record remPost (qt : QuadTree) (p : Point.t) (r : bool) (qt' : QuadTree)
  : Prop := {
  rem_inv : inv qt';
  rem_boundary : boundary qt' = boundary qt;
  rem_capacity : capacity qt' = capacity qt;
  rem_false :
    r = false ->
    qt' = qt /\ forall e, In e (allPoints qt) -> exactMatch e p = false;
  rem_true :
    r = true ->
    exists e, exactMatch e p = true /\
              Permutation (allPoints qt) (e :: allPoints qt');
  rem_exact : exactTree qt' = exactTree qt
}.

(** [ins] answers on every tree that [n] nested calls suffice for, and
    the tree it gives back is such a tree again. *)
Definition insTotal (n : nat)
    (ins : QuadTree -> Point.t -> result (bool * QuadTree)) : Prop :=
  forall t p, deep n t -> exists r t', ins t p = Some (r, t') /\ deep n t'.

(** [ins'] answers as [ins] wherever [ins] answers. *)
Definition extends (ins ins' : QuadTree -> Point.t -> result (bool * QuadTree))
  : Prop :=
  forall qt p x, ins qt p = Some x -> ins' qt p = Some x.

(** ** Structure of a tree *)

(** The nodes of a tree, with their boundaries and capacities and without
    their buckets. *)
Fixpoint skeleton (qt : QuadTree) : QuadTree :=
  match qt with
  | Leaf b c _ => Leaf b c []
  | Quad b c _ nw ne sw se =>
    Quad b c [] (skeleton nw) (skeleton ne) (skeleton sw) (skeleton se)
  end.

(** [grows qt qt']: every node of [qt] is a node of [qt'], at the same
    place and with the same boundary and capacity; below the leaves of
    [qt] there may be more. *)
Fixpoint grows (qt qt' : QuadTree) : Prop :=
  match qt with
  | Leaf b c _ => boundary qt' = b /\ capacity qt' = c
  | Quad b c _ nw ne sw se =>
    match qt' with
    | Leaf _ _ _ => False
    | Quad b' c' _ nw' ne' sw' se' =>
      b' = b /\ c' = c /\
      grows nw nw' /\ grows ne ne' /\ grows sw sw' /\ grows se se'
    end
  end.

(** Every entry of a bucket lies within the boundary of its node and of
    every node above it. *)
Fixpoint bucketsWithin (qt : QuadTree) : Prop :=
  match qt with
  | Leaf b _ pts => within b pts
  | Quad b _ pts nw ne sw se =>
    within b (pts ++ allPoints nw ++ allPoints ne ++ allPoints sw ++ allPoints se) /\
    bucketsWithin nw /\ bucketsWithin ne /\ bucketsWithin sw /\ bucketsWithin se
  end.

(** Every node has capacity [cap], and the children of every internal
    node have the boundaries that [subdivide] computes. *)
Fixpoint subdivided (cap : Z) (qt : QuadTree) : Prop :=
  match qt with
  | Leaf _ c _ => c = cap
  | Quad b c _ nw ne sw se =>
    c = cap /\
    (boundary nw, boundary ne, boundary sw, boundary se) = childBoundaries b /\
    subdivided cap nw /\ subdivided cap ne /\
    subdivided cap sw /\ subdivided cap se
  end.

(** ** The callers in [main.go]

    The simulation and the HTTP handler use the tree through [Insert],
    [Remove] and [Query].  Of [simulateDriver] the body of the loop is
    modelled, with the two draws of [rng.Float64()] as arguments; of
    [handleFindNearby] what follows the parsing of the parameters, whose
    failure is [None]. *)

Module Main.
Open Scope float_scope.

Definition worldBoundary : Boundary.t := Boundary.mk 0 0 180 90.
Definition searchRadiusX : float := 20.
Definition searchRadiusY : float := 20.

(** [tree = quadtree.NewQuadTree(worldBoundary, 4)]. *)
Definition tree0 : QuadTree := NewQuadTree worldBoundary 4.

(** The constant [0.1] as a [float64]: the nearest binary64 value. *)
Definition tenth : float := 0x1.999999999999ap-4.

(** The two tests on [newLon], one after the other. *)
Definition wrapLon (newLon : float) : float :=
  let newLon := if 180 <? newLon then -180 else newLon in
  if newLon <? -180 then 180 else newLon.

(** The two tests on [newLat]. *)
Definition wrapLat (newLat : float) : float :=
  let newLat := if 90 <? newLat then -90 else newLat in
  if newLat <? -90 then 90 else newLat.

(** The point that the loop of [simulateDriver] computes from the current
    one and two draws [u1], [u2] of [rng.Float64()].  The product and the
    sum are rounded one after the other, as the amd64 compiler does; Go
    allows a target with a fused multiply-add to round them once. *)
Definition nextPoint (driverID : String.string) (currentPoint : Point.t)
    (u1 u2 : float) : Point.t :=
  let newLon := Point.X currentPoint + (u1 - 0.5) * tenth in
  let newLat := Point.Y currentPoint + (u2 - 0.5) * tenth in
  Point.mk (wrapLon newLon) (wrapLat newLat) (PString driverID).

(** One turn of the loop of [simulateDriver]: [tree.Remove(currentPoint)],
    then [tree.Insert(newPoint)], then [currentPoint = newPoint].  The
    answers of both calls are discarded, as in the source. *)
Definition moveDriver (fuel : nat) (driverID : String.string)
    (tree : QuadTree) (currentPoint : Point.t) (u1 u2 : float)
  : result (QuadTree * Point.t) :=
  let tree := snd (Remove tree currentPoint) in
  let newPoint := nextPoint driverID currentPoint u1 u2 in
  match Insert fuel tree newPoint with
  | None => None
  | Some (_, tree) => Some (tree, newPoint)
  end.

Record DriverResponse : Type :=
  mkResponse { ID : String.string; Lat : float; Lon : float }.

(** The loop over [foundPoints]: a point whose payload is not a string is
    skipped. *)
Fixpoint responses (foundPoints : list Point.t) : list DriverResponse :=
  match foundPoints with
  | [] => []
  | p :: rest =>
    match Point.Data p with
    | PString id => mkResponse id (Point.Y p) (Point.X p) :: responses rest
    | _ => responses rest
    end
  end.

(** [handleFindNearby]: [lat] and [lon] are the parsed parameters, [None]
    when [strconv.ParseFloat] failed; the answer [None] is the status 400,
    [Some results] the status 200 with its body. *)
Definition handleFindNearby (tree : QuadTree) (lat lon : option float)
  : option (list DriverResponse) :=
  match lat, lon with
  | Some lat, Some lon =>
    let searchArea := Boundary.mk lon lat searchRadiusX searchRadiusY in
    let foundPoints := snd (Query tree searchArea) in
    Some (responses foundPoints)
  | _, _ => None
  end.

(** What the loop of [simulateDriver] keeps for a driver: every stored
    entry with the driver's identifier is the current point, and there is
    at most one. *)
Definition tracked (driverID : String.string) (tree : QuadTree)
    (currentPoint : Point.t) : Prop :=
  Point.Data currentPoint = PString driverID /\
  (forall e, In e (allPoints tree) -> Point.Data e = PString driverID ->
             e = currentPoint) /\
  (length (filter (fun e => Payload_eqb (Point.Data e) (PString driverID))
                  (allPoints tree)) <= 1)%nat.

End Main.

(** ** Example data: the world and the points of the package's tests *)

Module Ex.
Open Scope float_scope.
Open Scope string_scope.

Definition world : Boundary.t := Boundary.mk 0 0 100 100.
Definition p1 : Point.t := Point.mk (-50) 50 (PString "p1 (NW)").
Definition p2 : Point.t := Point.mk 50 50 (PString "p2 (NE)").
Definition p3 : Point.t := Point.mk (-50) (-50) (PString "p3 (SW)").
Definition p4 : Point.t := Point.mk 50 (-50) (PString "p4 (SE)").
Definition p5 : Point.t := Point.mk 60 60 (PString "p5 (NE, extra)").
Definition searchNE : Boundary.t := Boundary.mk 50 50 50 50.

(** The tree that a call gave back. *)
Definition treeOf (r : result (bool * QuadTree)) : QuadTree :=
  match r with
  | Some (_, qt) => qt
  | None => NewQuadTree world 2
  end.

Definition qt0 : QuadTree := NewQuadTree world 2.
Definition qt1 : QuadTree := Eval vm_compute in treeOf (Insert 64 qt0 p1).
Definition qt2 : QuadTree := Eval vm_compute in treeOf (Insert 64 qt1 p2).
Definition qt3 : QuadTree := Eval vm_compute in treeOf (Insert 64 qt2 p3).
Definition qt4 : QuadTree := Eval vm_compute in treeOf (Insert 64 qt3 p4).
Definition qt5 : QuadTree := Eval vm_compute in treeOf (Insert 64 qt4 p5).

(** A boundary at the magnitude where consecutive floats are 2 apart
    above the centre and 1 apart below it. *)
Definition big : Boundary.t := Boundary.mk 0x1p+53 0 2 2.
Definition onCentre : Point.t := Point.mk 0x1p+53 0 (PString "c").
Definition westOf : Point.t := Point.mk 9007199254740990 0 (PString "w").
Definition overlap : Point.t := Point.mk 9007199254740991 (-1) (PString "o").

(** Three copies of one point in the test world with capacity 2. *)
Definition dup : Point.t := Point.mk 50 50 (PString "d").
Definition dup1 : QuadTree := Eval vm_compute in treeOf (Insert 64 qt0 dup).
Definition dup2 : QuadTree := Eval vm_compute in treeOf (Insert 64 dup1 dup).
Definition dup3 : QuadTree := Eval vm_compute in treeOf (Insert 64 dup2 dup).

(** Two copies of the centre point in a tree over [big] with capacity 1. *)
Definition lone1 : QuadTree := Eval vm_compute in treeOf (Insert 64 (NewQuadTree big 1) onCentre).
Definition lone2 : QuadTree := Eval vm_compute in treeOf (Insert 64 lone1 onCentre).

(** A tree over [big] with capacity 1, subdivided by its second point. *)
Definition big0 : QuadTree := NewQuadTree big 1.
Definition big1 : QuadTree := Eval vm_compute in treeOf (Insert 64 big0 overlap).
Definition big2 : QuadTree := Eval vm_compute in treeOf (Insert 64 big1 westOf).

(** The tree of [main] with one driver close to the western border. *)
Definition driver0 : String.string := "driver-0".
Definition driverA : Point.t := Point.mk (-179.96875) 0 (PString driver0).
Definition sim1 : QuadTree := Eval vm_compute in treeOf (Insert 64 Main.tree0 driverA).
Definition driver1 : String.string := "driver-1".
Definition driverB : Point.t := Point.mk 10 10 (PString driver1).

(** A point whose payload is a NaN, and the empty tree of the tests after
    its insertion. *)
Definition unequal : Point.t := Point.mk 50 50 (PFloat nan).
Definition nan1 : QuadTree := Eval vm_compute in treeOf (Insert 64 qt0 unequal).
End Ex.

(** * Facts about the ordering of floats *)

Module F64Facts.
Import F64.

Lemma SFcompare_key (f g : spec_float) :
  match SFcompare f g with
  | None => key f = None \/ key g = None
  | Some Lt => exists a b, key f = Some a /\ key g = Some b /\ lexlt a b
  | Some Eq => exists a b, key f = Some a /\ key g = Some b /\ lexeq a b
  | Some Gt => exists a b, key f = Some a /\ key g = Some b /\ lexlt b a
  end.
Proof.
  destruct f as [sf|sf| |sf mf ef], g as [sg|sg| |sg mg eg]; cbn;
    try destruct sf; try destruct sg; cbn;
    try (left; reflexivity); try (right; reflexivity);
    try (do 2 eexists; split; [reflexivity|split; [reflexivity|cbn; lia]]).
  - change (Pos.compare_cont Eq mf mg) with (Pos.compare mf mg).
    destruct (Z.compare_spec ef eg); cbn;
      try (do 2 eexists; split; [reflexivity|split; [reflexivity|cbn; lia]]).
    destruct (Pos.compare_spec mf mg); cbn;
      do 2 eexists; (split; [reflexivity|split; [reflexivity|cbn; lia]]).
  - change (Pos.compare_cont Eq mf mg) with (Pos.compare mf mg).
    destruct (Z.compare_spec ef eg); cbn;
      try (do 2 eexists; split; [reflexivity|split; [reflexivity|cbn; lia]]).
    destruct (Pos.compare_spec mf mg); cbn;
      do 2 eexists; (split; [reflexivity|split; [reflexivity|cbn; lia]]).
Qed.

Lemma ltb_key (x y : float) :
  (x <? y)%float = true <->
  exists a b, fkey x = Some a /\ fkey y = Some b /\ lexlt a b.
Proof.
  rewrite FloatAxioms.ltb_spec. unfold SFltb, fkey.
  pose proof (SFcompare_key (Prim2SF x) (Prim2SF y)) as H.
  destruct (SFcompare (Prim2SF x) (Prim2SF y)) as [[ | | ]|]; split; intro G;
    try discriminate; try reflexivity; try exact H; exfalso;
    destruct G as (a & b & Ha & Hb & Hab);
    try (destruct H as (a' & b' & Ha' & Hb' & Hab');
         rewrite Ha in Ha'; rewrite Hb in Hb';
         injection Ha' as <-; injection Hb' as <-;
         destruct a as [[? ?] ?], b as [[? ?] ?]; cbn in *; lia);
    destruct H as [H|H]; congruence.
Qed.

Lemma eqb_key (x y : float) :
  (x =? y)%float = true <->
  exists a b, fkey x = Some a /\ fkey y = Some b /\ lexeq a b.
Proof.
  rewrite FloatAxioms.eqb_spec. unfold SFeqb, fkey.
  pose proof (SFcompare_key (Prim2SF x) (Prim2SF y)) as H.
  destruct (SFcompare (Prim2SF x) (Prim2SF y)) as [[ | | ]|]; split; intro G;
    try discriminate; try reflexivity; try exact H; exfalso;
    destruct G as (a & b & Ha & Hb & Hab);
    try (destruct H as (a' & b' & Ha' & Hb' & Hab');
         rewrite Ha in Ha'; rewrite Hb in Hb';
         injection Ha' as <-; injection Hb' as <-;
         destruct a as [[? ?] ?], b as [[? ?] ?]; cbn in *; lia);
    destruct H as [H|H]; congruence.
Qed.

Lemma leb_key (x y : float) :
  (x <=? y)%float = true <->
  exists a b, fkey x = Some a /\ fkey y = Some b /\ (lexlt a b \/ lexeq a b).
Proof.
  rewrite FloatAxioms.leb_spec. unfold SFleb, fkey.
  pose proof (SFcompare_key (Prim2SF x) (Prim2SF y)) as H.
  destruct (SFcompare (Prim2SF x) (Prim2SF y)) as [[ | | ]|]; split; intro G;
    try discriminate; try reflexivity;
    try (destruct H as (a & b & Ha & Hb & Hab); exists a, b; tauto);
    exfalso; destruct G as (a & b & Ha & Hb & Hab);
    try (destruct H as (a' & b' & Ha' & Hb' & Hab');
         rewrite Ha in Ha'; rewrite Hb in Hb';
         injection Ha' as <-; injection Hb' as <-;
         destruct a as [[? ?] ?], b as [[? ?] ?]; cbn in *; lia);
    destruct H as [H|H]; congruence.
Qed.

Lemma onKeys_ex (R : Z * Z * Z -> Z * Z * Z -> Prop) (x y : float) :
  (exists a b, fkey x = Some a /\ fkey y = Some b /\ R a b) <-> onKeys R x y.
Proof.
  unfold onKeys. split.
  - intros (a & b & -> & -> & H). exact H.
  - destruct (fkey x) as [a|], (fkey y) as [b|]; try tauto.
    intro H. exists a, b. auto.
Qed.

Lemma ltb_true (x y : float) : (x <? y)%float = true <-> onKeys lexlt x y.
Proof. rewrite ltb_key. apply onKeys_ex. Qed.

Lemma eqb_true (x y : float) : (x =? y)%float = true <-> onKeys lexeq x y.
Proof. rewrite eqb_key. apply onKeys_ex. Qed.

Lemma leb_true (x y : float) :
  (x <=? y)%float = true <-> onKeys (fun a b => lexlt a b \/ lexeq a b) x y.
Proof. rewrite leb_key. apply onKeys_ex. Qed.

Lemma geb_true (x y : float) :
  geb x y = true <-> onKeys (fun a b => lexlt a b \/ lexeq a b) y x.
Proof. unfold geb. apply leb_true. Qed.

(** Decides a statement about comparisons of floats: every comparison is
    read on the keys, and the keys are compared by [lia]. *)
Ltac float_keys :=
  repeat match goal with
         | H : _ = false |- _ => apply not_true_iff_false in H
         | |- _ = false => apply not_true_iff_false; intro
         end;
  rewrite ?ltb_true, ?leb_true, ?eqb_true, ?geb_true in *;
  unfold onKeys in *;
  repeat match goal with
         | |- context [fkey ?x] =>
           let a := fresh "k" in destruct (fkey x) as [[[? ?] ?]|]
         | H : context [fkey ?x] |- _ =>
           let a := fresh "k" in destruct (fkey x) as [[[? ?] ?]|]
         end;
  cbn [lexlt lexeq] in *; try tauto; try lia.

Lemma leb_ltb_excl (a p b : float) :
  (a <=? p)%float = true -> (p <? b)%float = true -> (b <=? a)%float = false.
Proof. intros. float_keys. Qed.

Lemma ltb_not_eqb (x y : float) :
  (x <? y)%float = true -> (x =? y)%float = false.
Proof. intros. float_keys. Qed.

Lemma eqb_leb (x y : float) :
  (x =? y)%float = true -> (x <=? y)%float = true.
Proof. intros. float_keys. Qed.

Lemma eqb_refl_leb (a x : float) :
  (a <=? x)%float = true -> (x =? x)%float = true.
Proof. intros. float_keys. Qed.

Lemma eqb_leb_r (a x y : float) :
  (x =? y)%float = true -> (a <=? x)%float = (a <=? y)%float.
Proof.
  intro H. apply eq_true_iff_eq. split; intro; float_keys.
Qed.

Lemma eqb_ltb_l (x y b : float) :
  (x =? y)%float = true -> (x <? b)%float = (y <? b)%float.
Proof.
  intro H. apply eq_true_iff_eq. split; intro; float_keys.
Qed.

Lemma eqb_leb_l (x y b : float) :
  (x =? y)%float = true -> (x <=? b)%float = (y <=? b)%float.
Proof.
  intro H. apply eq_true_iff_eq. split; intro; float_keys.
Qed.

Lemma eqb_ltb_r (a x y : float) :
  (x =? y)%float = true -> (a <? x)%float = (a <? y)%float.
Proof.
  intro H. apply eq_true_iff_eq. split; intro; float_keys.
Qed.

Lemma eqb_refl_r (x y : float) :
  (x =? y)%float = true -> (y =? y)%float = true.
Proof. intros. float_keys. Qed.

(** Of two comparable floats, one is below the other or at least it. *)
Lemma ltb_or_leb (x m : float) :
  (x =? x)%float = true -> (m =? m)%float = true ->
  (x <? m)%float = negb (m <=? x)%float.
Proof.
  intros Hx Hm.
  destruct (x <? m)%float eqn:E1, (m <=? x)%float eqn:E2; try reflexivity;
    exfalso; float_keys.
Qed.

Lemma ltb_leb_trans (a b c : float) :
  (a <? b)%float = true -> (b <=? c)%float = true -> (a <? c)%float = true.
Proof. intros. float_keys. Qed.

Lemma leb_trans (a b c : float) :
  (a <=? b)%float = true -> (b <=? c)%float = true -> (a <=? c)%float = true.
Proof. intros. float_keys. Qed.

End F64Facts.

(** * The two predicates *)

Module Geometry.
Import F64Facts.

Lemma Contains_between (b : Boundary.t) (p : Point.t) :
  Contains b p =
  between (minX b) (maxX b) (Point.X p) && between (minY b) (maxY b) (Point.Y p).
Proof.
  unfold Contains, between, minX, maxX, minY, maxY.
  now rewrite !andb_assoc.
Qed.

Lemma between_true (lo hi x : float) :
  between lo hi x = true <-> (lo <=? x)%float = true /\ (x <? hi)%float = true.
Proof. unfold between, geb. apply andb_true_iff. Qed.

Lemma Contains_true (b : Boundary.t) (p : Point.t) :
  Contains b p = true <->
  ((minX b <=? Point.X p)%float = true /\ (Point.X p <? maxX b)%float = true) /\
  ((minY b <=? Point.Y p)%float = true /\ (Point.Y p <? maxY b)%float = true).
Proof.
  rewrite Contains_between, andb_true_iff, !between_true. reflexivity.
Qed.

(** [Intersects] is the negation of the four separation tests. *)
Lemma Intersects_separation (a b : Boundary.t) :
  Intersects a b =
  negb ((maxX a <=? minX b)%float || (maxX b <=? minX a)%float ||
        (maxY a <=? minY b)%float || (maxY b <=? minY a)%float).
Proof.
  unfold Intersects, geb, minX, maxX, minY, maxY.
  destruct (_ <=? _)%float, (_ <=? _)%float, (_ <=? _)%float, (_ <=? _)%float;
    reflexivity.
Qed.

Lemma between_overlap (lo hi lo' hi' x : float) :
  between lo hi x = true -> between lo' hi' x = true ->
  (hi <=? lo')%float = false /\ (hi' <=? lo)%float = false.
Proof.
  rewrite !between_true. intros [H1 H2] [H3 H4]. split.
  - exact (leb_ltb_excl _ _ _ H3 H2).
  - exact (leb_ltb_excl _ _ _ H1 H4).
Qed.

(** A point of both rectangles makes them intersect: the pruning test of
    [queryRecursive] never fails on a node that holds a match. *)
Lemma Contains_Intersects (a b : Boundary.t) (p : Point.t) :
  Contains a p = true -> Contains b p = true -> Intersects a b = true.
Proof.
  rewrite !Contains_between, !andb_true_iff. intros [HX HY] [HX' HY'].
  destruct (between_overlap _ _ _ _ _ HX HX') as [E1 E2].
  destruct (between_overlap _ _ _ _ _ HY HY') as [E3 E4].
  rewrite Intersects_separation, E1, E2, E3, E4. reflexivity.
Qed.

Lemma between_eqb (lo hi x y : float) :
  (x =? y)%float = true -> between lo hi x = between lo hi y.
Proof.
  intro H. unfold between, geb.
  now rewrite (eqb_leb_r lo _ _ H), (eqb_ltb_l _ _ hi H).
Qed.

(** [Contains] does not tell apart two points that [Remove] takes for
    equal. *)
Lemma Contains_exactMatch (b : Boundary.t) (e p : Point.t) :
  exactMatch e p = true -> Contains b e = Contains b p.
Proof.
  unfold exactMatch. rewrite !andb_true_iff. intros [[_ HX] HY].
  rewrite !Contains_between.
  now rewrite (between_eqb _ _ _ _ HX), (between_eqb _ _ _ _ HY).
Qed.

(** A string is equal to itself; a payload in general need not be. *)
Lemma Payload_eqb_string (s : String.string) :
  Payload_eqb (PString s) (PString s) = true.
Proof. cbn. apply String.eqb_refl. Qed.

(** A point that some boundary contains has comparable coordinates, and
    [Remove] recognises it when its payload is equal to itself. *)
Lemma exactMatch_refl (b : Boundary.t) (p : Point.t) :
  Contains b p = true -> Payload_eqb (Point.Data p) (Point.Data p) = true ->
  exactMatch p p = true.
Proof.
  rewrite Contains_true. intros [[HX _] [HY _]] HD.
  unfold exactMatch.
  now rewrite HD, (eqb_refl_leb _ _ HX), (eqb_refl_leb _ _ HY).
Qed.

(** A payload that is not equal to itself is equal to no payload. *)
Lemma Payload_eqb_irrefl (d e : Payload) :
  Payload_eqb d d = false -> Payload_eqb e d = false.
Proof.
  destruct d as [| s | n | f]; cbn.
  - discriminate.
  - now rewrite String.eqb_refl.
  - now rewrite Z.eqb_refl.
  - intro H. destruct e as [| | | g]; try reflexivity. cbn.
    destruct (PrimFloat.eqb g f) eqn:E; [|reflexivity].
    rewrite (eqb_refl_r _ _ E) in H. discriminate.
Qed.

(** The upper edges are outside. *)
Lemma between_upper (lo hi x : float) :
  (x =? hi)%float = true -> between lo hi x = false.
Proof.
  intro H. unfold between.
  destruct (x <? hi)%float eqn:E.
  - apply ltb_not_eqb in E. congruence.
  - apply andb_false_r.
Qed.

Lemma Contains_upper_edge (b : Boundary.t) (p : Point.t) :
  (Point.X p =? maxX b)%float = true \/ (Point.Y p =? maxY b)%float = true ->
  Contains b p = false.
Proof.
  rewrite Contains_between. intros [H|H];
    rewrite (between_upper _ _ _ H); auto using andb_false_r.
Qed.

Lemma between_edges_eqb (lo hi lo' hi' x : float) :
  (lo' =? lo)%float = true -> (hi' =? hi)%float = true ->
  between lo' hi' x = between lo hi x.
Proof.
  intros H1 H2. unfold between, geb.
  now rewrite (eqb_leb_l _ _ x H1), (eqb_ltb_r x _ _ H2).
Qed.

(** One axis of an exact subdivision: [lo, mid) and [mid, hi) share no
    point and cover [lo, hi). *)
Lemma between_halves (lo mid hi lo1 hi1 lo2 hi2 x : float) :
  (lo1 =? lo)%float = true -> (hi1 =? mid)%float = true ->
  (lo2 =? mid)%float = true -> (hi2 =? hi)%float = true ->
  between lo hi x = true ->
  between lo1 hi1 x = negb (between lo2 hi2 x).
Proof.
  intros H1 H2 H3 H4 H.
  rewrite (between_edges_eqb _ _ _ _ x H1 H2), (between_edges_eqb _ _ _ _ x H3 H4).
  apply between_true in H. destruct H as [H5 H6].
  unfold between, geb. rewrite H5, H6, andb_true_r. cbn.
  apply ltb_or_leb.
  - exact (eqb_refl_leb _ _ H5).
  - exact (eqb_refl_r _ _ H2).
Qed.

(** One axis of an exact subdivision: each half lies within the whole. *)
Lemma between_half_within (lo mid hi lo1 hi1 lo2 hi2 x : float) :
  (lo1 =? lo)%float = true -> (hi1 =? mid)%float = true ->
  (lo2 =? mid)%float = true -> (hi2 =? hi)%float = true ->
  (lo <=? mid)%float = true -> (mid <=? hi)%float = true ->
  between lo1 hi1 x = true \/ between lo2 hi2 x = true ->
  between lo hi x = true.
Proof.
  intros H1 H2 H3 H4 H5 H6.
  rewrite (between_edges_eqb _ _ _ _ x H1 H2), (between_edges_eqb _ _ _ _ x H3 H4).
  rewrite !between_true.
  intros [[G1 G2]|[G1 G2]]; split; trivial.
  - exact (ltb_leb_trans _ _ _ G2 H6).
  - exact (leb_trans _ _ _ H5 G1).
Qed.

End Geometry.

(** * Exact subdivisions *)

Module Tiling.
Import F64Facts Geometry.

Lemma exactSplit_true (b : Boundary.t) :
  exactSplit b = true ->
  let '(nw, ne, sw, se) := childBoundaries b in
  (((minX nw =? minX b)%float = true /\ (maxX nw =? Boundary.X b)%float = true /\
    (minX ne =? Boundary.X b)%float = true /\ (maxX ne =? maxX b)%float = true) /\
   ((minY sw =? minY b)%float = true /\ (maxY sw =? Boundary.Y b)%float = true /\
    (minY nw =? Boundary.Y b)%float = true /\ (maxY nw =? maxY b)%float = true)) /\
  ((minX b <=? Boundary.X b)%float = true /\ (Boundary.X b <=? maxX b)%float = true) /\
  ((minY b <=? Boundary.Y b)%float = true /\ (Boundary.Y b <=? maxY b)%float = true).
Proof.
  unfold exactSplit. destruct (childBoundaries b) as [[[nw ne] sw] se].
  rewrite !andb_true_iff. tauto.
Qed.

(** The four [Contains] tests of the children, by axis. *)
Lemma children_between (b : Boundary.t) (p : Point.t) :
  let '(nw, ne, sw, se) := childBoundaries b in
  let west := between (minX nw) (maxX nw) (Point.X p) in
  let east := between (minX ne) (maxX ne) (Point.X p) in
  let south := between (minY sw) (maxY sw) (Point.Y p) in
  let north := between (minY nw) (maxY nw) (Point.Y p) in
  Contains nw p = west && north /\ Contains ne p = east && north /\
  Contains sw p = west && south /\ Contains se p = east && south.
Proof.
  unfold childBoundaries. cbv zeta. rewrite !Contains_between. auto.
Qed.

(** Under an exact subdivision, exactly one child accepts a point of the
    parent. *)
Lemma exactSplit_childHits (b : Boundary.t) (p : Point.t) :
  exactSplit b = true -> Contains b p = true -> childHits b p = 1%nat.
Proof.
  intros He Hc. apply exactSplit_true in He.
  pose proof (children_between b p) as Hb.
  unfold childHits.
  destruct (childBoundaries b) as [[[nw ne] sw] se]. cbv zeta in Hb.
  cbn [filter].
  destruct He as [[(X1 & X2 & X3 & X4) (Y1 & Y2 & Y3 & Y4)] _].
  destruct Hb as (-> & -> & -> & ->).
  rewrite Contains_between, andb_true_iff in Hc. destruct Hc as [HX HY].
  rewrite (between_halves _ _ _ _ _ _ _ _ X1 X2 X3 X4 HX).
  rewrite (between_halves _ _ _ _ _ _ _ _ Y1 Y2 Y3 Y4 HY).
  destruct (between (minX ne) (maxX ne) (Point.X p)),
           (between (minY nw) (maxY nw) (Point.Y p)); reflexivity.
Qed.

(** Under an exact subdivision, a point of a child is a point of the
    parent. *)
Lemma exactSplit_nested (b : Boundary.t) (p : Point.t) :
  exactSplit b = true -> Contains b p = false -> childHits b p = 0%nat.
Proof.
  intros He Hc. apply exactSplit_true in He.
  pose proof (children_between b p) as Hb.
  unfold childHits.
  destruct (childBoundaries b) as [[[nw ne] sw] se]. cbv zeta in Hb.
  cbn [filter].
  destruct He as [[(X1 & X2 & X3 & X4) (Y1 & Y2 & Y3 & Y4)] [[X5 X6] [Y5 Y6]]].
  destruct Hb as (-> & -> & -> & ->).
  pose proof (between_half_within _ _ _ _ _ _ _ (Point.X p) X1 X2 X3 X4 X5 X6) as GX.
  pose proof (between_half_within _ _ _ _ _ _ _ (Point.Y p) Y1 Y2 Y3 Y4 Y5 Y6) as GY.
  rewrite Contains_between in Hc.
  destruct (between (minX nw) (maxX nw) (Point.X p)),
           (between (minX ne) (maxX ne) (Point.X p)),
           (between (minY sw) (maxY sw) (Point.Y p)),
           (between (minY nw) (maxY nw) (Point.Y p)); cbn; try reflexivity;
    exfalso;
    (rewrite GX in Hc by auto); (rewrite GY in Hc by auto); discriminate.
Qed.

End Tiling.

(** * Buckets *)

Module Bucket.
Import Geometry.

Lemma submset_refl (l : list Point.t) : submset l l.
Proof. exists []. now rewrite app_nil_r. Qed.

Lemma submset_Forall (P : Point.t -> Prop) (l1 l2 : list Point.t) :
  submset l1 l2 -> Forall P l2 -> Forall P l1.
Proof.
  intros [d Hd] H. rewrite Forall_forall in *. intros x Hx.
  apply H. eapply Permutation_in; [exact Hd|]. apply in_or_app. now left.
Qed.

Lemma submset_trans (l1 l2 l3 : list Point.t) :
  submset l1 l2 -> submset l2 l3 -> submset l1 l3.
Proof.
  intros [d1 H1] [d2 H2]. exists (d1 ++ d2).
  rewrite app_assoc. rewrite <- H2. now apply Permutation_app_tail.
Qed.

Lemma submset_perm (l1 l2 l3 : list Point.t) :
  submset l1 l2 -> Permutation l2 l3 -> submset l1 l3.
Proof. intros [d H1] H2. exists d. now rewrite H1. Qed.

(** Replacing the part [a] of [x ++ a ++ y] by a list that holds the
    entries of [a] and [p], up to the entries [d] left out. *)
Lemma perm_in_context (x y a a' d : list Point.t) (p : Point.t) :
  Permutation (a' ++ d) (p :: a) ->
  Permutation ((x ++ a' ++ y) ++ d) (p :: x ++ a ++ y).
Proof.
  intro H.
  rewrite <- !app_assoc.
  rewrite (Permutation_app_comm y d).
  rewrite (app_assoc a' d y), H. cbn.
  symmetry. apply Permutation_middle.
Qed.

Lemma matchCount_app (p : Point.t) (l1 l2 : list Point.t) :
  matchCount p (l1 ++ l2) = (matchCount p l1 + matchCount p l2)%nat.
Proof. unfold matchCount. now rewrite filter_app, length_app. Qed.

Lemma matchCount_perm (p : Point.t) (l1 l2 : list Point.t) :
  Permutation l1 l2 -> matchCount p l1 = matchCount p l2.
Proof.
  unfold matchCount. induction 1; cbn;
    repeat match goal with |- context [exactMatch ?e p] =>
                             destruct (exactMatch e p) end;
    cbn; congruence.
Qed.

Lemma matchCount_submset (p : Point.t) (l1 l2 : list Point.t) :
  submset l1 l2 -> (matchCount p l1 <= matchCount p l2)%nat.
Proof.
  intros [d H]. rewrite <- (matchCount_perm p _ _ H), matchCount_app. lia.
Qed.

Lemma matchCount_zero (p : Point.t) (l : list Point.t) :
  matchCount p l = 0%nat <-> forall e, In e l -> exactMatch e p = false.
Proof.
  unfold matchCount. induction l as [|x l IH]; cbn.
  - split; [intros _ e []|reflexivity].
  - destruct (exactMatch x p) eqn:E; cbn.
    + split; [discriminate|]. intro H. specialize (H x (or_introl eq_refl)).
      congruence.
    + rewrite IH. split.
      * intros H e [<-|He]; auto.
      * intros H e He. apply H. now right.
Qed.

Lemma matchCount_cons (p e : Point.t) (l : list Point.t) :
  matchCount p (e :: l) =
  ((if exactMatch e p then 1 else 0) + matchCount p l)%nat.
Proof. unfold matchCount. cbn. now destruct (exactMatch e p). Qed.

(** The scan of [Remove] finds the first matching entry, or [-1]. *)
Lemma findIndex_spec (p : Point.t) (pts : list Point.t) (i : Z) :
  (0 <= i)%Z ->
  (findIndex p pts i = (-1)%Z /\ forall e, In e pts -> exactMatch e p = false) \/
  (exists (k : nat) (e : Point.t),
      findIndex p pts i = (i + Z.of_nat k)%Z /\ nth_error pts k = Some e /\
      exactMatch e p = true).
Proof.
  revert i. induction pts as [|x pts IH]; intros i Hi; cbn.
  - left. split; [reflexivity|intros e []].
  - destruct (exactMatch x p) eqn:E.
    + right. exists 0%nat, x. split; [lia|]. auto.
    + destruct (IH (i + 1)%Z ltac:(lia)) as [[H1 H2]|(k & e & H1 & H2 & H3)].
      * left. split; [exact H1|]. intros e [<-|He]; auto.
      * right. exists (S k), e. split; [lia|]. auto.
Qed.

Lemma setAt_length (i : nat) (x : Point.t) (l : list Point.t) :
  length (setAt i x l) = length l.
Proof.
  revert i. induction l as [|y l IH]; intros [|i]; cbn; auto.
Qed.

Lemma removelast_cons (x : Point.t) (l : list Point.t) :
  l <> [] -> removelast (x :: l) = x :: removelast l.
Proof. destruct l; [congruence|reflexivity]. Qed.

Lemma perm_removelast (l : list Point.t) (lastPt : Point.t) :
  nth_error l (length l - 1) = Some lastPt ->
  Permutation l (lastPt :: removelast l).
Proof.
  induction l as [|x l IH]; cbn.
  - discriminate.
  - destruct l as [|y l].
    + cbn. now intros [= ->].
    + replace (length (y :: l) - 0)%nat with (S (length (y :: l) - 1))
        by (cbn; lia).
      intro H. cbn [nth_error] in H. specialize (IH H).
      rewrite IH at 1. apply perm_swap.
Qed.

(** Swap and pop takes out the entry at [k] and nothing else. *)
Lemma swapPop_perm (l : list Point.t) (k : nat) (e : Point.t) :
  nth_error l k = Some e -> Permutation l (e :: swapPop k l).
Proof.
  unfold swapPop.
  destruct (nth_error l (length l - 1)) as [lastPt|] eqn:HL.
  2:{ intro H. apply nth_error_None in HL.
      assert (k < length l)%nat by (apply nth_error_Some; congruence).
      lia. }
  revert k HL. induction l as [|x l IH]; intros k HL Hk.
  - destruct k; discriminate.
  - destruct l as [|y l].
    + destruct k as [|k]; [|destruct k; discriminate].
      cbn in *. injection Hk as ->. reflexivity.
    + replace (length (x :: y :: l) - 1)%nat with (S (length (y :: l) - 1)) in HL
        by (cbn; lia).
      cbn [nth_error] in HL.
      destruct k as [|k]; cbn [nth_error setAt] in *.
      * injection Hk as ->. apply perm_skip.
        rewrite removelast_cons by discriminate.
        now apply perm_removelast.
      * rewrite removelast_cons.
        2:{ intro G. apply (f_equal (@length _)) in G.
            rewrite setAt_length in G. discriminate. }
        rewrite (IH k HL Hk) at 1. apply perm_swap.
Qed.

Lemma swapPop_length (l : list Point.t) (k : nat) (e : Point.t) :
  nth_error l k = Some e -> length l = S (length (swapPop k l)).
Proof.
  intro H. apply swapPop_perm in H. apply Permutation_length in H. exact H.
Qed.

Lemma scanPoints_filter (r : Boundary.t) (pts found : list Point.t) :
  scanPoints r pts found = found ++ filter (Contains r) pts.
Proof.
  revert found. induction pts as [|p pts IH]; intro found; cbn.
  - now rewrite app_nil_r.
  - rewrite IH. destruct (Contains r p); [|reflexivity].
    now rewrite <- app_assoc.
Qed.

(** No entry of a bucket that lies within [b] matches a point outside
    [b]. *)
Lemma within_no_match (b : Boundary.t) (l : list Point.t) (p : Point.t) :
  within b l -> Contains b p = false ->
  forall e, In e l -> exactMatch e p = false.
Proof.
  intros Hw Hc e He. unfold within in Hw. rewrite Forall_forall in Hw.
  destruct (exactMatch e p) eqn:E; [|reflexivity].
  rewrite <- (Contains_exactMatch b e p E), (Hw e He) in Hc. discriminate.
Qed.

Lemma within_no_query (b r : Boundary.t) (l : list Point.t) :
  within b l -> Intersects b r = false -> filter (Contains r) l = [].
Proof.
  intros Hw Hi. induction Hw as [|p l Hp _ IH]; cbn; [reflexivity|].
  destruct (Contains r p) eqn:E; [|exact IH].
  rewrite (Contains_Intersects b r p Hp E) in Hi. discriminate.
Qed.

End Bucket.

(** * The tree operations *)

Module Tree.
Import Geometry Bucket Tiling.

Lemma allPoints_setChild (k : quadrant) (qt t : QuadTree) (p : Point.t)
    (dropped : list Point.t) :
  isLeaf qt = false ->
  Permutation (allPoints t ++ dropped) (p :: allPoints (child k qt)) ->
  Permutation (allPoints (setChild k qt t) ++ dropped) (p :: allPoints qt).
Proof.
  destruct qt as [|b c pts nw ne sw se]; [discriminate|]. intros _ H.
  destruct k; cbn [child setChild allPoints] in *.
  - now apply perm_in_context.
  - rewrite !(app_assoc pts (allPoints nw)). now apply perm_in_context.
  - rewrite !(app_assoc (allPoints nw) (allPoints ne)).
    rewrite !(app_assoc pts (allPoints nw ++ allPoints ne)).
    now apply perm_in_context.
  - pose proof (perm_in_context
                  (pts ++ allPoints nw ++ allPoints ne ++ allPoints sw) []
                  _ _ _ _ H) as G.
    rewrite !app_nil_r in G. rewrite <- !app_assoc in *. exact G.
Qed.

Lemma inv_within (qt : QuadTree) : inv qt -> within (boundary qt) (allPoints qt).
Proof.
  destruct qt; cbn.
  - tauto.
  - intros (_ & -> & _ & _ & H & _). exact H.
Qed.

Lemma inv_Quad_points (b : Boundary.t) (c : Z) (pts : list Point.t)
    (nw ne sw se : QuadTree) :
  inv (Quad b c pts nw ne sw se) ->
  allPoints (Quad b c pts nw ne sw se) =
  allPoints nw ++ allPoints ne ++ allPoints sw ++ allPoints se.
Proof. cbn. now intros (_ & -> & _). Qed.

Lemma inv_child (k : quadrant) (qt : QuadTree) : inv qt -> inv (child k qt).
Proof.
  destruct qt; cbn; [tauto|]. destruct k; tauto.
Qed.

Lemma insPost_unchanged (qt : QuadTree) (p : Point.t) :
  inv qt -> insPost qt p false qt.
Proof.
  intro H. split; auto using submset_refl. discriminate.
Qed.

(** A child took the point: the node has changed in that slot only. *)
Lemma insPost_setChild (k : quadrant) (qt t : QuadTree) (p : Point.t) :
  inv qt -> isLeaf qt = false -> Contains (boundary qt) p = true ->
  insPost (child k qt) p true t ->
  insPost qt p true (setChild k qt t).
Proof.
  intros Hinv Hleaf Hc [I B C _ _ [d Hd] E _].
  assert (HP : submset (allPoints (setChild k qt t)) (p :: allPoints qt))
    by (exists d; now apply allPoints_setChild).
  destruct qt as [|b c pts nw ne sw se]; [discriminate|].
  assert (Hw : within b (allPoints (setChild k (Quad b c pts nw ne sw se) t))).
  { eapply submset_Forall; [exact HP|].
    constructor; [exact Hc|]. exact (inv_within _ Hinv). }
  cbn in Hinv. destruct Hinv as (H1 & -> & H3 & (C1 & C2 & C3 & C4) & _ & I1 & I2 & I3 & I4).
  split; try (intros; assumption); try discriminate.
  - destruct k; cbn in *; rewrite ?B, ?C; repeat split; auto.
  - now destruct k.
  - now destruct k.
  - destruct k; cbn [setChild child exactTree] in *; rewrite !andb_true_iff;
      tauto.
  - now destruct k.
Qed.

Lemma insertChildren_post (ins : QuadTree -> Point.t -> result (bool * QuadTree))
    (qt : QuadTree) (p : Point.t) (r : bool) (qt' : QuadTree) :
  insSpec ins -> inv qt -> isLeaf qt = false ->
  Contains (boundary qt) p = true ->
  insertChildren ins qt p = Some (r, qt') ->
  insPost qt p r qt'.
Proof.
  intros Hins Hinv Hleaf Hc.
  destruct qt as [|b c pts nw ne sw se]; [discriminate|].
  pose proof (fun k => Hins (child k (Quad b c pts nw ne sw se)) p) as Hk.
  pose proof (fun k => inv_child k _ Hinv) as Ik.
  unfold insertChildren.
  destruct (ins nw p) as [[[|] nw']|] eqn:E1; try discriminate.
  { intros [= <- <-].
    exact (insPost_setChild NW _ _ _ Hinv Hleaf Hc (Hk NW _ _ (Ik NW) E1)). }
  rewrite (post_false _ _ _ _ (Hk NW _ _ (Ik NW) E1) eq_refl).
  destruct (ins ne p) as [[[|] ne']|] eqn:E2; try discriminate.
  { intros [= <- <-].
    exact (insPost_setChild NE _ _ _ Hinv Hleaf Hc (Hk NE _ _ (Ik NE) E2)). }
  rewrite (post_false _ _ _ _ (Hk NE _ _ (Ik NE) E2) eq_refl).
  destruct (ins sw p) as [[[|] sw']|] eqn:E3; try discriminate.
  { intros [= <- <-].
    exact (insPost_setChild SW _ _ _ Hinv Hleaf Hc (Hk SW _ _ (Ik SW) E3)). }
  rewrite (post_false _ _ _ _ (Hk SW _ _ (Ik SW) E3) eq_refl).
  destruct (ins se p) as [[[|] se']|] eqn:E4; try discriminate.
  { intros [= <- <-].
    exact (insPost_setChild SE _ _ _ Hinv Hleaf Hc (Hk SE _ _ (Ik SE) E4)). }
  rewrite (post_false _ _ _ _ (Hk SE _ _ (Ik SE) E4) eq_refl).
  intros [= <- <-]. now apply insPost_unchanged.
Qed.

Lemma submset_step (a a1 rest : list Point.t) (pt : Point.t) (r : bool) :
  submset a1 (if r then pt :: a else a) ->
  submset (a1 ++ rest) (a ++ pt :: rest).
Proof.
  intros [d Hd]. destruct r.
  - exists d. rewrite <- app_assoc, (Permutation_app_comm rest d), app_assoc, Hd.
    cbn. apply Permutation_middle.
  - exists (pt :: d). rewrite <- Permutation_middle. rewrite <- Permutation_middle.
    apply perm_skip.
    rewrite <- app_assoc, (Permutation_app_comm rest d), app_assoc, Hd.
    reflexivity.
Qed.

Lemma redistribute_post (ins : QuadTree -> Point.t -> result (bool * QuadTree))
    (oldPoints : list Point.t) :
  insSpec ins ->
  forall qt qt',
    inv qt -> isLeaf qt = false -> within (boundary qt) oldPoints ->
    redistribute ins qt oldPoints = Some qt' ->
    inv qt' /\ isLeaf qt' = false /\
    boundary qt' = boundary qt /\ capacity qt' = capacity qt /\
    submset (allPoints qt') (allPoints qt ++ oldPoints) /\
    (exactTree qt' = true -> exactTree qt = true).
Proof.
  intro Hins. induction oldPoints as [|pt rest IH]; intros qt qt' Hinv Hleaf Hw; cbn.
  - intros [= <-]. rewrite app_nil_r. repeat split; auto using submset_refl.
  - destruct (insertChildren ins qt pt) as [[r qt1]|] eqn:E; [|discriminate].
    intro H. inversion Hw as [|? ? Hpt Hrest]; subst.
    destruct (insertChildren_post ins qt pt r qt1 Hins Hinv Hleaf Hpt E)
      as [I B C F T P X L].
    assert (Hrest' : within (boundary qt1) rest) by (rewrite B; exact Hrest).
    destruct (IH qt1 qt' I (L Hleaf) Hrest' H) as (I' & L' & B' & C' & P' & X').
    repeat split; auto; try congruence.
    eapply submset_trans; [exact P'|].
    eapply submset_step. exact P.
Qed.

Lemma inv_NewQuadTree (b : Boundary.t) (c : Z) : inv (NewQuadTree b c).
Proof.
  unfold NewQuadTree.
  destruct (c <? 1)%Z eqn:E; cbn [inv length Z.of_nat];
    repeat split; try (apply Z.ltb_ge in E); try lia; try constructor.
Qed.

Lemma capacity_NewQuadTree (b : Boundary.t) (c : Z) :
  (1 <= c)%Z -> NewQuadTree b c = Leaf b c [].
Proof.
  intro H. unfold NewQuadTree.
  destruct (c <? 1)%Z eqn:E; [|reflexivity]. apply Z.ltb_lt in E. lia.
Qed.

(** The node that [Insert] redistributes into: the subdivided leaf with
    its bucket cleared. *)
Lemma inv_subdivided (b : Boundary.t) (c : Z) (pts : list Point.t) :
  (1 <= c)%Z ->
  inv (clearPoints (subdivide (Leaf b c pts))) /\
  isLeaf (clearPoints (subdivide (Leaf b c pts))) = false /\
  boundary (clearPoints (subdivide (Leaf b c pts))) = b /\
  capacity (clearPoints (subdivide (Leaf b c pts))) = c /\
  allPoints (clearPoints (subdivide (Leaf b c pts))) = [].
Proof.
  intro Hc. unfold subdivide, childBoundaries. cbn [boundary capacity points].
  cbv zeta. rewrite !(capacity_NewQuadTree _ c Hc). cbn.
  repeat split; auto; try lia; constructor.
Qed.

(** Every call of [Insert] that returns satisfies the post-condition. *)
Lemma Insert_post (fuel : nat) : insSpec (Insert fuel).
Proof.
  induction fuel as [|fuel IH]; intros qt p r qt' Hinv; cbn [Insert].
  - discriminate.
  - destruct (Contains (boundary qt) p) eqn:Hc; cbn [negb].
    2:{ intros [= <- <-]. now apply insPost_unchanged. }
    destruct qt as [b c pts|b c pts nw ne sw se].
    + cbn [points capacity].
      destruct (Z.of_nat (length (pts ++ [p])) >? c)%Z eqn:Hfull.
      * destruct (redistribute _ _ _) as [qt3|] eqn:E; [|discriminate].
        intros [= <- <-].
        destruct Hinv as (H1 & H2 & H3).
        destruct (inv_subdivided b c (pts ++ [p]) H1) as (I & L & B & C & A).
        assert (Hw : within (boundary (clearPoints (subdivide (Leaf b c (pts ++ [p])))))
                            (points (subdivide (Leaf b c (pts ++ [p]))))).
        { rewrite B. unfold subdivide, childBoundaries. cbn.
          apply Forall_app. split; [exact H3|]. constructor; [exact Hc|constructor]. }
        destruct (redistribute_post _ _ IH _ _ I L Hw E) as (I' & L' & B' & C' & P' & _).
        split; auto; try congruence; try discriminate.
        rewrite A in P'. cbn [app] in P'.
        eapply submset_perm; [exact P'|].
        unfold subdivide, childBoundaries. cbn.
        rewrite Permutation_app_comm. reflexivity.
      * intros [= <- <-].
        destruct Hinv as (H1 & H2 & H3).
        split; auto; try discriminate.
        -- cbn. repeat split; auto.
           ++ rewrite Z.gtb_ltb in Hfull. apply Z.ltb_ge in Hfull. exact Hfull.
           ++ apply Forall_app. split; [exact H3|].
              constructor; [exact Hc|constructor].
        -- exists []. rewrite app_nil_r. cbn.
           rewrite Permutation_app_comm. reflexivity.
    + intro E. now apply (insertChildren_post (Insert fuel) _ p r qt' IH Hinv).
Qed.

(** When the cascade answers true, a child whose boundary contains the
    point took it. *)
Lemma insertChildren_true_child
    (ins : QuadTree -> Point.t -> result (bool * QuadTree))
    (qt qt' : QuadTree) (p : Point.t) :
  insSpec ins -> inv qt ->
  insertChildren ins qt p = Some (true, qt') ->
  exists k, Contains (boundary (child k qt)) p = true.
Proof.
  intros Hins Hinv.
  destruct qt as [|b c pts nw ne sw se]; [discriminate|].
  pose proof (fun k => Hins (child k (Quad b c pts nw ne sw se)) p) as Hk.
  pose proof (fun k => inv_child k _ Hinv) as Ik.
  unfold insertChildren.
  destruct (ins nw p) as [[[|] nw']|] eqn:E1; try discriminate.
  { intros _. exists NW. exact (post_true _ _ _ _ (Hk NW _ _ (Ik NW) E1) eq_refl). }
  destruct (ins ne p) as [[[|] ne']|] eqn:E2; try discriminate.
  { intros _. exists NE. exact (post_true _ _ _ _ (Hk NE _ _ (Ik NE) E2) eq_refl). }
  destruct (ins sw p) as [[[|] sw']|] eqn:E3; try discriminate.
  { intros _. exists SW. exact (post_true _ _ _ _ (Hk SW _ _ (Ik SW) E3) eq_refl). }
  destruct (ins se p) as [[[|] se']|] eqn:E4; try discriminate.
  intros _. exists SE. exact (post_true _ _ _ _ (Hk SE _ _ (Ik SE) E4) eq_refl).
Qed.

(** ** Insertion where the subdivisions are exact *)

Lemma exactTree_setChild (k : quadrant) (qt t : QuadTree) :
  isLeaf qt = false ->
  exactTree (setChild k qt t) = true ->
  exactSplit (boundary qt) = true /\ exactTree t = true.
Proof.
  destruct qt as [|b c pts nw ne sw se]; [discriminate|]. intros _.
  destruct k; cbn [setChild exactTree boundary]; rewrite !andb_true_iff; tauto.
Qed.

Lemma setChild_same (k : quadrant) (qt : QuadTree) : setChild k qt (child k qt) = qt.
Proof. destruct qt; [reflexivity|]. now destruct k. Qed.

(** Some child accepts a point of an exactly subdivided node. *)
Lemma exact_child_accepts (b : Boundary.t) (c : Z) (pts : list Point.t)
    (nw ne sw se : QuadTree) (p : Point.t) :
  inv (Quad b c pts nw ne sw se) -> exactSplit b = true ->
  Contains b p = true ->
  Contains (boundary nw) p = false -> Contains (boundary ne) p = false ->
  Contains (boundary sw) p = false -> Contains (boundary se) p = false ->
  False.
Proof.
  intros (_ & _ & HB & _) He Hc H1 H2 H3 H4.
  pose proof (exactSplit_childHits b p He Hc) as H.
  unfold childHits in H. rewrite <- HB in H. cbn [filter] in H.
  rewrite H1, H2, H3, H4 in H. discriminate.
Qed.

Lemma insertChildren_exact (ins : QuadTree -> Point.t -> result (bool * QuadTree))
    (qt : QuadTree) (p : Point.t) (r : bool) (qt' : QuadTree) :
  insSpec ins -> insExact ins ->
  inv qt -> isLeaf qt = false -> exactTree qt' = true ->
  Contains (boundary qt) p = true ->
  insertChildren ins qt p = Some (r, qt') ->
  r = true /\ Permutation (allPoints qt') (p :: allPoints qt).
Proof.
  intros Hins Hex Hinv Hleaf Hx Hc.
  destruct qt as [|b c pts nw ne sw se]; [discriminate|].
  set (qt := Quad b c pts nw ne sw se) in *.
  pose proof (fun k => Hins (child k qt) p) as Hk.
  pose proof (fun k => inv_child k _ Hinv) as Ik.
  assert (Hdone : forall k t,
             ins (child k qt) p = Some (true, t) -> qt' = setChild k qt t ->
             true = true /\ Permutation (allPoints qt') (p :: allPoints qt)).
  { intros k t E ->. split; [reflexivity|].
    destruct (exactTree_setChild k qt t Hleaf Hx) as [_ Ht].
    pose proof (post_true _ _ _ _ (Hk k _ _ (Ik k) E) eq_refl) as Hck.
    destruct (Hex _ _ _ _ (Ik k) Ht Hck E) as [_ HP].
    rewrite <- (app_nil_r (allPoints (setChild k qt t))).
    apply allPoints_setChild; [exact Hleaf|]. now rewrite app_nil_r. }
  assert (Hrej : forall k t,
             ins (child k qt) p = Some (false, t) ->
             t = child k qt /\
             (exactTree qt' = true -> exactTree (setChild k qt t) = true ->
              Contains (boundary (child k qt)) p = false)).
  { intros k t E. pose proof (Hk k _ _ (Ik k) E) as Pk.
    split; [exact (post_false _ _ _ _ Pk eq_refl)|].
    intros _ Ht.
    destruct (Contains (boundary (child k qt)) p) eqn:Hck; [|reflexivity].
    destruct (exactTree_setChild k qt t Hleaf Ht) as [_ Ht'].
    destruct (Hex _ _ _ _ (Ik k) Ht' Hck E). discriminate. }
  subst qt. unfold insertChildren.
  destruct (ins nw p) as [[[|] nw']|] eqn:E1; try discriminate.
  { intros [= <- <-]. exact (Hdone NW nw' E1 eq_refl). }
  destruct (Hrej NW nw' E1) as [-> R1].
  destruct (ins ne p) as [[[|] ne']|] eqn:E2; try discriminate.
  { intros [= <- <-]. exact (Hdone NE ne' E2 eq_refl). }
  destruct (Hrej NE ne' E2) as [-> R2].
  destruct (ins sw p) as [[[|] sw']|] eqn:E3; try discriminate.
  { intros [= <- <-]. exact (Hdone SW sw' E3 eq_refl). }
  destruct (Hrej SW sw' E3) as [-> R3].
  destruct (ins se p) as [[[|] se']|] eqn:E4; try discriminate.
  { intros [= <- <-]. exact (Hdone SE se' E4 eq_refl). }
  destruct (Hrej SE se' E4) as [-> R4].
  intros [= <- <-]. exfalso. cbn [child setChild] in *.
  assert (He : exactSplit b = true).
  { cbn [exactTree] in Hx. rewrite !andb_true_iff in Hx. tauto. }
  exact (exact_child_accepts b c pts nw ne sw se p Hinv He Hc
           (R1 Hx Hx) (R2 Hx Hx) (R3 Hx Hx) (R4 Hx Hx)).
Qed.

Lemma redistribute_exact (ins : QuadTree -> Point.t -> result (bool * QuadTree))
    (oldPoints : list Point.t) :
  insSpec ins -> insExact ins ->
  forall qt qt',
    inv qt -> isLeaf qt = false -> within (boundary qt) oldPoints ->
    exactTree qt' = true ->
    redistribute ins qt oldPoints = Some qt' ->
    Permutation (allPoints qt') (allPoints qt ++ oldPoints).
Proof.
  intros Hins Hex.
  induction oldPoints as [|pt rest IH]; intros qt qt' Hinv Hleaf Hw Hx; cbn.
  - intros [= <-]. now rewrite app_nil_r.
  - destruct (insertChildren ins qt pt) as [[r qt1]|] eqn:E; [|discriminate].
    intro H. inversion Hw as [|? ? Hpt Hrest]; subst.
    destruct (insertChildren_post ins qt pt r qt1 Hins Hinv Hleaf Hpt E)
      as [I B C F T P X L].
    assert (Hrest' : within (boundary qt1) rest) by (rewrite B; exact Hrest).
    destruct (redistribute_post ins rest Hins qt1 qt' I (L Hleaf) Hrest' H)
      as (_ & _ & _ & _ & _ & X1).
    destruct (insertChildren_exact ins qt pt r qt1 Hins Hex Hinv Hleaf (X1 Hx) Hpt E)
      as [_ HP].
    rewrite (IH qt1 qt' I (L Hleaf) Hrest' Hx H), HP. cbn.
    apply Permutation_middle.
Qed.

Lemma Insert_exact (fuel : nat) : insExact (Insert fuel).
Proof.
  induction fuel as [|fuel IH]; intros qt p r qt' Hinv Hx Hc; cbn [Insert].
  - discriminate.
  - rewrite Hc. cbn [negb].
    destruct qt as [b c pts|b c pts nw ne sw se].
    + cbn [points capacity].
      destruct (Z.of_nat (length (pts ++ [p])) >? c)%Z eqn:Hfull.
      * destruct (redistribute _ _ _) as [qt3|] eqn:E; [|discriminate].
        intros [= <- <-]. split; [reflexivity|].
        destruct Hinv as (H1 & H2 & H3).
        destruct (inv_subdivided b c (pts ++ [p]) H1) as (I & L & B & C & A).
        assert (Hw : within (boundary (clearPoints (subdivide (Leaf b c (pts ++ [p])))))
                            (points (subdivide (Leaf b c (pts ++ [p]))))).
        { rewrite B. unfold subdivide, childBoundaries. cbn.
          apply Forall_app. split; [exact H3|]. constructor; [exact Hc|constructor]. }
        rewrite (redistribute_exact _ _ (Insert_post fuel) IH _ _ I L Hw Hx E).
        rewrite A. unfold subdivide, childBoundaries. cbn.
        rewrite Permutation_app_comm. reflexivity.
      * intros [= <- <-]. split; [reflexivity|]. cbn.
        rewrite Permutation_app_comm. reflexivity.
    + intro E.
      exact (insertChildren_exact (Insert fuel) _ p r qt' (Insert_post fuel) IH
               Hinv eq_refl Hx Hc E).
Qed.

(** ** Removal *)

Lemma child_setChild (k : quadrant) (qt t : QuadTree) :
  isLeaf qt = false -> child k (setChild k qt t) = t.
Proof. destruct qt; [discriminate|]. now destruct k. Qed.

Lemma setChild_setChild (k : quadrant) (qt t t' : QuadTree) :
  setChild k (setChild k qt t) t' = setChild k qt t'.
Proof. destruct qt; [reflexivity|]. now destruct k. Qed.

Lemma isLeaf_setChild (k : quadrant) (qt t : QuadTree) :
  isLeaf (setChild k qt t) = isLeaf qt.
Proof. destruct qt; [reflexivity|]. now destruct k. Qed.

(** Taking [e] out of the child in slot [k] takes it out of the node. *)
Lemma allPoints_setChild_remove (k : quadrant) (qt t : QuadTree) (e : Point.t) :
  isLeaf qt = false ->
  Permutation (allPoints (child k qt)) (e :: allPoints t) ->
  Permutation (allPoints qt) (e :: allPoints (setChild k qt t)).
Proof.
  intros Hleaf H.
  pose proof (allPoints_setChild k (setChild k qt t) (child k qt) e []) as G.
  rewrite isLeaf_setChild, child_setChild, setChild_setChild, setChild_same,
    !app_nil_r in G by assumption.
  auto.
Qed.

Lemma remPost_setChild (k : quadrant) (qt t : QuadTree) (p : Point.t) :
  inv qt -> isLeaf qt = false ->
  remPost (child k qt) p true t ->
  remPost qt p true (setChild k qt t).
Proof.
  intros Hinv Hleaf [I B C _ T E].
  destruct (T eq_refl) as (e & He & HP).
  pose proof (allPoints_setChild_remove k qt t e Hleaf HP) as HQ.
  assert (Hw : within (boundary qt) (allPoints (setChild k qt t))).
  { pose proof (inv_within _ Hinv) as W. unfold within in *.
    rewrite HQ in W. now inversion W. }
  destruct qt as [|b c pts nw ne sw se]; [discriminate|].
  cbn in Hinv.
  destruct Hinv as (H1 & -> & H3 & (C1 & C2 & C3 & C4) & _ & I1 & I2 & I3 & I4).
  split; try discriminate.
  - destruct k; cbn in *; rewrite ?B, ?C; repeat split; auto.
  - now destruct k.
  - now destruct k.
  - intros _. exists e. auto.
  - destruct k; cbn [setChild child exactTree] in *; now rewrite E.
Qed.

Lemma remPost_unchanged (qt : QuadTree) (p : Point.t) :
  inv qt -> (forall e, In e (allPoints qt) -> exactMatch e p = false) ->
  remPost qt p false qt.
Proof. intros H1 H2. split; auto. discriminate. Qed.

Lemma Remove_post (qt : QuadTree) (p : Point.t) :
  inv qt -> remPost qt p (fst (Remove qt p)) (snd (Remove qt p)).
Proof.
  induction qt as [b c pts|b c pts nw IHnw ne IHne sw IHsw se IHse]; intro Hinv.
  - cbn [Remove]. destruct (Contains b p) eqn:Hc; cbn [negb fst snd].
    2:{ apply remPost_unchanged; [exact Hinv|].
        destruct Hinv as (_ & _ & Hw). exact (within_no_match b pts p Hw Hc). }
    destruct (findIndex_spec p pts 0 (Z.le_refl 0))
      as [[H1 H2]|(k & e & H1 & H2 & H3)]; rewrite H1.
    + cbn [Z.eqb fst snd]. now apply remPost_unchanged.
    + replace ((0 + Z.of_nat k =? -1)%Z) with false by (symmetry; apply Z.eqb_neq; lia).
      replace (Z.to_nat (0 + Z.of_nat k)) with k by lia.
      cbn [fst snd]. destruct Hinv as (G1 & G2 & G3).
      pose proof (swapPop_perm pts k e H2) as HP.
      split; auto; try discriminate.
      * cbn. repeat split; auto.
        -- rewrite (swapPop_length pts k e H2) in G2. lia.
        -- unfold within in *. rewrite HP in G3. now inversion G3.
      * intros _. exists e. auto.
  - pose proof Hinv as Hinv'. cbn in Hinv'.
    destruct Hinv' as (H1 & Hpts & H3 & _ & Hw & I1 & I2 & I3 & I4).
    specialize (IHnw I1). specialize (IHne I2).
    specialize (IHsw I3). specialize (IHse I4).
    cbn [Remove]. destruct (Contains b p) eqn:Hc; cbn [negb fst snd].
    2:{ apply remPost_unchanged; [exact Hinv|]. subst pts.
        exact (within_no_match b _ p Hw Hc). }
    destruct (Remove nw p) as [[|] nw']; cbn [fst snd] in *.
    { exact (remPost_setChild NW _ nw' p Hinv eq_refl IHnw). }
    destruct (rem_false _ _ _ _ IHnw eq_refl) as [-> N1].
    destruct (Remove ne p) as [[|] ne']; cbn [fst snd] in *.
    { exact (remPost_setChild NE _ ne' p Hinv eq_refl IHne). }
    destruct (rem_false _ _ _ _ IHne eq_refl) as [-> N2].
    destruct (Remove sw p) as [[|] sw']; cbn [fst snd] in *.
    { exact (remPost_setChild SW _ sw' p Hinv eq_refl IHsw). }
    destruct (rem_false _ _ _ _ IHsw eq_refl) as [-> N3].
    destruct (Remove se p) as [[|] se']; cbn [fst snd] in *.
    { exact (remPost_setChild SE _ se' p Hinv eq_refl IHse). }
    destruct (rem_false _ _ _ _ IHse eq_refl) as [-> N4].
    apply remPost_unchanged; [exact Hinv|]. subst pts. cbn.
    intros e He. rewrite !in_app_iff in He. intuition auto.
Qed.

(** ** Queries *)

(** [queryRecursive] gives the node back as it took it. *)
Lemma queryRecursive_frame (qt : QuadTree) (r : Boundary.t)
    (found : list Point.t) :
  fst (queryRecursive qt r found) = qt.
Proof.
  revert found.
  induction qt as [b c pts|b c pts nw IHnw ne IHne sw IHsw se IHse];
    intro found; cbn [queryRecursive].
  - now destruct (Intersects b r).
  - destruct (Intersects b r); cbn [negb]; [|reflexivity].
    specialize (IHnw found).
    destruct (queryRecursive nw r found) as [nw' f1].
    specialize (IHne f1). destruct (queryRecursive ne r f1) as [ne' f2].
    specialize (IHsw f2). destruct (queryRecursive sw r f2) as [sw' f3].
    specialize (IHse f3). destruct (queryRecursive se r f3) as [se' f4].
    cbn [fst] in *. congruence.
Qed.

(** It appends the stored entries that the range contains. *)
Lemma queryRecursive_found (qt : QuadTree) (r : Boundary.t)
    (found : list Point.t) :
  inv qt ->
  snd (queryRecursive qt r found) = found ++ filter (Contains r) (allPoints qt).
Proof.
  revert found.
  induction qt as [b c pts|b c pts nw IHnw ne IHne sw IHsw se IHse];
    intros found Hinv; cbn [queryRecursive].
  - destruct (Intersects b r) eqn:Hi; cbn [negb snd allPoints].
    + apply scanPoints_filter.
    + destruct Hinv as (_ & _ & Hw).
      now rewrite (within_no_query b r pts Hw Hi), app_nil_r.
  - pose proof (inv_within _ Hinv) as Hw. cbn [boundary] in Hw.
    rewrite (inv_Quad_points _ _ _ _ _ _ _ Hinv) in *.
    destruct (Intersects b r) eqn:Hi; cbn [negb snd].
    2:{ now rewrite (within_no_query b r _ Hw Hi), app_nil_r. }
    destruct Hinv as (_ & _ & _ & _ & _ & I1 & I2 & I3 & I4).
    specialize (IHnw found I1).
    destruct (queryRecursive nw r found) as [nw' f1].
    specialize (IHne f1 I2). destruct (queryRecursive ne r f1) as [ne' f2].
    specialize (IHsw f2 I3). destruct (queryRecursive sw r f2) as [sw' f3].
    specialize (IHse f3 I4). destruct (queryRecursive se r f3) as [se' f4].
    cbn [snd] in *. subst. now rewrite !filter_app, !app_assoc.
Qed.

(** ** Reachable trees *)

Lemma reachable_inv (qt : QuadTree) : reachable qt -> inv qt.
Proof.
  induction 1 as [b c|qt qt' fuel p r _ IH E|qt p _ IH|qt r _ IH].
  - apply inv_NewQuadTree.
  - exact (post_inv _ _ _ _ (Insert_post fuel qt p r qt' IH E)).
  - exact (rem_inv _ _ _ _ (Remove_post qt p IH)).
  - unfold Query. now rewrite queryRecursive_frame.
Qed.

(** ** Shape *)

Lemma inv_capacity (qt : QuadTree) : inv qt -> (1 <= capacity qt)%Z.
Proof. destruct qt; cbn; tauto. Qed.

Lemma inv_bucketsBounded (qt : QuadTree) :
  inv qt -> bucketsBounded (capacity qt) qt.
Proof.
  induction qt as [b c pts|b c pts nw IHnw ne IHne sw IHsw se IHse]; cbn.
  - tauto.
  - intros (_ & -> & _ & (C1 & C2 & C3 & C4) & _ & I1 & I2 & I3 & I4).
    specialize (IHnw I1). specialize (IHne I2).
    specialize (IHsw I3). specialize (IHse I4).
    rewrite C1 in IHnw. rewrite C2 in IHne. rewrite C3 in IHsw. rewrite C4 in IHse.
    auto.
Qed.

(** In an exactly subdivided tree the leaves tile the root. *)
Lemma leafHits_exact (qt : QuadTree) (p : Point.t) :
  inv qt -> exactTree qt = true ->
  leafHits p qt = if Contains (boundary qt) p then 1%nat else 0%nat.
Proof.
  induction qt as [b c pts|b c pts nw IHnw ne IHne sw IHsw se IHse];
    intros Hinv Hx; cbn [leafHits boundary].
  - reflexivity.
  - cbn [exactTree] in Hx. rewrite !andb_true_iff in Hx.
    destruct Hx as [[[[He X1] X2] X3] X4].
    destruct Hinv as (_ & _ & HB & _ & _ & I1 & I2 & I3 & I4).
    rewrite (IHnw I1 X1), (IHne I2 X2), (IHsw I3 X3), (IHse I4 X4).
    destruct (Contains b p) eqn:Hc.
    + pose proof (exactSplit_childHits b p He Hc) as H.
      unfold childHits in H. rewrite <- HB in H. cbn [filter] in H.
      destruct (Contains (boundary nw) p), (Contains (boundary ne) p),
               (Contains (boundary sw) p), (Contains (boundary se) p);
        cbn in H |- *; congruence.
    + pose proof (exactSplit_nested b p He Hc) as H.
      unfold childHits in H. rewrite <- HB in H. cbn [filter] in H.
      destruct (Contains (boundary nw) p), (Contains (boundary ne) p),
               (Contains (boundary sw) p), (Contains (boundary se) p);
        cbn in H |- *; congruence.
Qed.

Lemma Insert_outside (fuel : nat) (qt : QuadTree) (p : Point.t) :
  Contains (boundary qt) p = false -> Insert (S fuel) qt p = Some (false, qt).
Proof. intro H. cbn [Insert]. now rewrite H. Qed.

Lemma filter_perm (f : Point.t -> bool) (l1 l2 : list Point.t) :
  Permutation l1 l2 -> Permutation (filter f l1) (filter f l2).
Proof.
  induction 1 as [|x l1 l2 _ IH|x y l|l1 l2 l3 _ IH1 _ IH2]; cbn.
  - constructor.
  - destruct (f x); auto.
  - destruct (f x), (f y); auto using perm_swap.
  - now rewrite IH1.
Qed.

End Tree.

(** * Halving a float

    [subdivide] halves the half-width of a node.  Division by 2 is read on
    the specification of binary64 division: a finite float becomes zero or
    a finite float of smaller rank. *)

Module Halving.
Open Scope Z_scope.

Lemma digits2_pos_bounds (m : positive) :
  2 ^ (Z.pos (digits2_pos m) - 1) <= Z.pos m < 2 ^ Z.pos (digits2_pos m).
Proof.
  induction m as [m IH|m IH|]; cbn [digits2_pos].
  - rewrite Pos2Z.inj_succ.
    replace (Z.succ (Z.pos (digits2_pos m)) - 1) with (Z.succ (Z.pos (digits2_pos m) - 1)) by lia.
    rewrite !Z.pow_succ_r by lia. lia.
  - rewrite Pos2Z.inj_succ.
    replace (Z.succ (Z.pos (digits2_pos m)) - 1) with (Z.succ (Z.pos (digits2_pos m) - 1)) by lia.
    rewrite !Z.pow_succ_r by lia. lia.
  - cbn. lia.
Qed.

Lemma Zdigits2_le (x : Z) (m : positive) :
  0 <= x <= Z.pos m -> Zdigits2 x <= Z.pos (digits2_pos m).
Proof.
  intros [H0 H1]. destruct x as [|x|x]; cbn; try lia.
  destruct (Z.le_gt_cases (Z.pos (digits2_pos x)) (Z.pos (digits2_pos m))) as [H|H]; [exact H|].
  exfalso.
  pose proof (digits2_pos_bounds x) as [Hx _].
  pose proof (digits2_pos_bounds m) as [_ Hm].
  assert (2 ^ Z.pos (digits2_pos m) <= 2 ^ (Z.pos (digits2_pos x) - 1))
    by (apply Z.pow_le_mono_r; lia).
  lia.
Qed.

Lemma valid_finite (s : bool) (m : positive) (e : Z) :
  SpecFloat.valid_binary prec emax (S754_finite s m e) = true ->
  Z.max (Z.pos (digits2_pos m) + e - 53) (-1074) = e /\ e <= 971.
Proof.
  cbn [valid_binary]. unfold SpecFloat.bounded, canonical_mantissa, fexp, emin, prec, emax.
  rewrite andb_true_iff, Z.eqb_eq, Z.leb_le. cbn. lia.
Qed.

Lemma div_eucl_eq (a b : Z) : IntDef.Z.div_eucl a b = (a / b, a mod b).
Proof. unfold Z.div, Z.modulo. now destruct (Z.div_eucl a b). Qed.

Lemma shiftl_eq (a n : Z) : 0 <= n -> IntDef.Z.shiftl a n = a * 2 ^ n.
Proof. intro H. apply Z.shiftl_mul_pow2. exact H. Qed.

Lemma xorb_false_r' (s : bool) : xorb s false = s.
Proof. now destruct s. Qed.

Lemma halve_case1 (s : bool) (m : positive) (e : Z) :
  Z.pos (digits2_pos m) = 53 -> -1072 <= e -> e <= 971 ->
  SFdiv prec emax (S754_finite s m e) F64.two = S754_finite s m (e - 1).
Proof.
  intros Hd He1 He2.
  unfold SFdiv, F64.two, SFdiv_core_binary.
  change (Zdigits2 (Z.pos m)) with (Z.pos (digits2_pos m)). rewrite Hd.
  change (Zdigits2 4503599627370496) with 53.
  replace (Z.min (fexp prec emax (53 + e - (53 + -51))) (e - -51)) with (e - 2)
    by (unfold fexp, SpecFloat.emin, prec, emax; lia).
  replace (e - -51 - (e - 2)) with 53 by lia.
  rewrite div_eucl_eq, shiftl_eq by lia.
  replace (Z.pos m * 2 ^ 53) with (Z.pos m~0 * 4503599627370496) by lia.
  rewrite Z.div_mul, Z.mod_mul by lia.
  change (new_location 4503599627370496 0) with loc_Exact.
  rewrite xorb_false_r'.
  unfold binary_round_aux, shr_fexp.
  cbn [Zdigits2 digits2_pos shr_record_of_loc].
  rewrite Pos2Z.inj_succ, Hd.
  replace (fexp prec emax (Z.succ 53 + (e - 2)) - (e - 2)) with 1
    by (unfold fexp, SpecFloat.emin, prec, emax; lia).
  cbn [shr iter_pos shr_1 orb shr_m loc_of_shr_record round_nearest_even Zdigits2].
  rewrite Hd.
  replace (fexp prec emax (53 + (e - 2 + 1)) - (e - 2 + 1)) with 0
    by (unfold fexp, SpecFloat.emin, prec, emax; lia).
  cbn [shr shr_record_of_loc shr_m].
  replace (e - 2 + 1 <=? emax - prec) with true
    by (symmetry; apply Z.leb_le; unfold emax, prec; lia).
  f_equal. lia.
Qed.

(** Rounding the half of a mantissa at the least exponent. *)
Lemma round_min_exp (s : bool) (q : Z) (l : location) (m : positive) :
  0 <= q -> round_nearest_even q l <= Z.pos m -> Z.pos (digits2_pos m) <= 53 ->
  binary_round_aux prec emax s q (-1074) l =
  match round_nearest_even q l with
  | Z.pos m' => S754_finite s m' (-1074)
  | _ => S754_zero s
  end.
Proof.
  intros Hq Hr Hd.
  assert (Hrq : q <= round_nearest_even q l).
  { destruct l as [|[| |]]; cbn; try lia. destruct (Z.even q); lia. }
  assert (D1 : Zdigits2 q <= 53)
    by (pose proof (Zdigits2_le q m); lia).
  assert (D2 : Zdigits2 (round_nearest_even q l) <= 53)
    by (pose proof (Zdigits2_le (round_nearest_even q l) m); lia).
  assert (D0 : forall x, 0 <= x -> 0 <= Zdigits2 x)
    by (intros [|x|x]; cbn; lia).
  unfold binary_round_aux, shr_fexp.
  replace (fexp prec emax (Zdigits2 q + -1074) - -1074) with 0
    by (unfold fexp, SpecFloat.emin, prec, emax; specialize (D0 q Hq); lia).
  cbn [shr].
  replace (loc_of_shr_record (shr_record_of_loc q l)) with l
    by (now destruct l as [|[| |]]).
  replace (shr_m (shr_record_of_loc q l)) with q
    by (now destruct l as [|[| |]]).
  replace (fexp prec emax (Zdigits2 (round_nearest_even q l) + -1074) - -1074) with 0
    by (unfold fexp, SpecFloat.emin, prec, emax;
        specialize (D0 (round_nearest_even q l) ltac:(lia)); lia).
  cbn [shr shr_record_of_loc shr_m].
  destruct (round_nearest_even q l) as [|m'|m']; try reflexivity; lia.
Qed.

Lemma halve_case2 (s : bool) (m : positive) :
  Z.pos (digits2_pos m) = 53 ->
  SFdiv prec emax (S754_finite s m (-1073)) F64.two = S754_finite s m (-1074).
Proof.
  intros Hd.
  unfold SFdiv, F64.two, SFdiv_core_binary.
  change (Zdigits2 (Z.pos m)) with (Z.pos (digits2_pos m)). rewrite Hd.
  change (Zdigits2 4503599627370496) with 53.
  replace (Z.min (fexp prec emax (53 + -1073 - (53 + -51))) (-1073 - -51))
    with (-1074) by (unfold fexp, SpecFloat.emin, prec, emax; lia).
  change (-1073 - -51 - -1074) with 52.
  rewrite div_eucl_eq, shiftl_eq by lia.
  change (2 ^ 52) with 4503599627370496.
  rewrite Z.div_mul, Z.mod_mul by lia.
  change (new_location 4503599627370496 0) with loc_Exact.
  rewrite xorb_false_r'.
  rewrite (round_min_exp s (Z.pos m) loc_Exact m); cbn [round_nearest_even]; try lia.
  reflexivity.
Qed.

Lemma halve_case3 (s : bool) (m : positive) :
  Z.pos (digits2_pos m) <= 53 ->
  match SFdiv prec emax (S754_finite s m (-1074)) F64.two with
  | S754_zero _ => True
  | S754_finite _ m' e' => e' = -1074 /\ (m' < m)%positive
  | _ => False
  end.
Proof.
  intros Hd.
  unfold SFdiv, F64.two, SFdiv_core_binary.
  change (Zdigits2 (Z.pos m)) with (Z.pos (digits2_pos m)).
  change (Zdigits2 4503599627370496) with 53.
  replace (Z.min (fexp prec emax (Z.pos (digits2_pos m) + -1074 - (53 + -51))) (-1074 - -51))
    with (-1074) by (unfold fexp, SpecFloat.emin, prec, emax; lia).
  change (-1074 - -51 - -1074) with 51.
  rewrite div_eucl_eq, shiftl_eq by lia.
  rewrite xorb_false_r'.
  destruct m as [m|m|].
  - (* odd mantissa: a tie *)
    replace (Z.pos m~1 * 2 ^ 51 / 4503599627370496) with (Z.pos m)
      by (apply Z.div_unique with (r := 2 ^ 51); lia).
    replace ((Z.pos m~1 * 2 ^ 51) mod 4503599627370496) with (2 ^ 51)
      by (apply Z.mod_unique with (q := Z.pos m); lia).
    change (new_location 4503599627370496 (2 ^ 51)) with (loc_Inexact Eq).
    rewrite (round_min_exp s (Z.pos m) (loc_Inexact Eq) m~1); try lia.
    + cbn [round_nearest_even]. destruct (Z.even (Z.pos m)); cbn; split; lia.
    + cbn [round_nearest_even]. destruct (Z.even (Z.pos m)); lia.
  - replace (Z.pos m~0 * 2 ^ 51 / 4503599627370496) with (Z.pos m)
      by (apply Z.div_unique with (r := 0); lia).
    replace ((Z.pos m~0 * 2 ^ 51) mod 4503599627370496) with 0
      by (apply Z.mod_unique with (q := Z.pos m); lia).
    change (new_location 4503599627370496 0) with loc_Exact.
    rewrite (round_min_exp s (Z.pos m) loc_Exact m~0); cbn [round_nearest_even]; lia.
  - vm_compute. destruct s; exact I.
Qed.

(** Halving a finite float gives zero or a finite float of smaller rank. *)
Lemma halve_finite (s : bool) (m : positive) (e : Z) :
  SpecFloat.valid_binary prec emax (S754_finite s m e) = true ->
  match SFdiv prec emax (S754_finite s m e) F64.two with
  | S754_zero _ => True
  | S754_finite s' m' e' =>
    0 <= F64.rank (S754_finite s' m' e') < F64.rank (S754_finite s m e)
  | _ => False
  end.
Proof.
  intro Hv. apply valid_finite in Hv. destruct Hv as [Hc He].
  pose proof (digits2_pos_bounds m) as [_ Hm].
  assert (Hd : Z.pos (digits2_pos m) <= 53) by lia.
  assert (Hm53 : Z.pos m < 2 ^ 53).
  { eapply Z.lt_le_trans; [exact Hm|]. apply Z.pow_le_mono_r; lia. }
  destruct (Z.eq_dec e (-1074)) as [->|Hne].
  - pose proof (halve_case3 s m Hd) as H.
    destruct (SFdiv prec emax (S754_finite s m (-1074)) F64.two); auto.
    destruct H as [-> H]. cbn [F64.rank]. lia.
  - assert (Hd' : Z.pos (digits2_pos m) = 53) by lia.
    destruct (Z.eq_dec e (-1073)) as [->|Hne'].
    + rewrite (halve_case2 s m Hd'). cbn [F64.rank]. lia.
    + rewrite (halve_case1 s m e Hd') by lia. cbn [F64.rank]. lia.
Qed.

End Halving.

(** * Insert returns

    Each subdivision halves the half-width, and a node whose half-width is
    zero, infinite or not a number has no child that accepts a point: the
    recursion of [Insert] is bounded, whatever the tree and the point. *)

Module Termination.
Import F64 F64Facts Geometry Halving.

Lemma Prim2SF_two : Prim2SF 2%float = two.
Proof. vm_compute. reflexivity. Qed.

Lemma Prim2SF_half (w : float) :
  Prim2SF (w / 2)%float = SFdiv prec emax (Prim2SF w) two.
Proof. now rewrite div_spec, Prim2SF_two. Qed.

(** A boundary whose lower edge is not below its upper edge, or has an
    edge that is not a number, accepts no point. *)
Lemma dead_of_keys (b : Boundary.t) :
  fkey (minX b) = None \/ fkey (maxX b) = None \/ fkey (minX b) = fkey (maxX b) ->
  forall p, Contains b p = false.
Proof.
  intros H p. destruct (Contains b p) eqn:E; [exfalso|reflexivity].
  apply Contains_true in E. destruct E as [[H1 H2] _].
  apply leb_key in H1. apply ltb_key in H2.
  destruct H1 as (a & k & Ha & Hk & Hak), H2 as (k' & c & Hk' & Hc & Hkc).
  rewrite Hk in Hk'. injection Hk' as <-.
  destruct H as [H|[H|H]]; try congruence.
  rewrite Ha, Hc in H. injection H as <-.
  destruct a as [[? ?] ?], k as [[? ?] ?]; cbn in *; lia.
Qed.

Lemma zero_width_key (x w : float) (s : bool) :
  Prim2SF w = S754_zero s -> fkey (x - w) = fkey (x + w).
Proof.
  intro H. unfold fkey. rewrite sub_spec, add_spec, H.
  destruct (Prim2SF x) as [[|]|[|]| |[|] m e], s; reflexivity.
Qed.

Lemma nan_width_key (x w : float) :
  Prim2SF w = S754_nan -> fkey (x - w) = None.
Proof.
  intro H. unfold fkey. rewrite sub_spec, H.
  destruct (Prim2SF x) as [[|]|[|]| |[|] m e]; reflexivity.
Qed.

Lemma inf_width_key (x c w : float) (s : bool) :
  Prim2SF w = S754_infinity s -> c = (x - w)%float \/ c = (x + w)%float ->
  fkey (c - w) = None \/ fkey (c + w) = None.
Proof.
  intros H [-> | ->]; unfold fkey;
    repeat (rewrite sub_spec || rewrite add_spec); rewrite H;
    destruct (Prim2SF x) as [[|]|[|]| |[|] m e], s; cbn; auto.
Qed.

Lemma bounded_mono (n : nat) (b : Boundary.t) :
  bounded n b -> forall m, (n <= m)%nat -> bounded m b.
Proof.
  induction 1 as [n b H|n b H IH]; intros m Hm;
    (destruct m as [|m]; [lia|]).
  - now apply bounded_dead.
  - apply bounded_split. intros c Hc. apply IH; [exact Hc|lia].
Qed.

(** The children of [b] have half its width and lie half a width to the
    left or the right of its centre. *)
Lemma child_shape (b c : Boundary.t) :
  In c (let '(nw, ne, sw, se) := childBoundaries b in [nw; ne; sw; se]) ->
  Boundary.Width c = (Boundary.Width b / 2)%float /\
  (Boundary.X c = (Boundary.X b - Boundary.Width b / 2)%float \/
   Boundary.X c = (Boundary.X b + Boundary.Width b / 2)%float).
Proof.
  unfold childBoundaries. cbn [In].
  intros [<-|[<-|[<-|[<-|[]]]]]; cbn; auto.
Qed.

Lemma bounded_of_children (b : Boundary.t) :
  (forall c, Boundary.Width c = (Boundary.Width b / 2)%float ->
             Boundary.X c = (Boundary.X b - Boundary.Width b / 2)%float \/
             Boundary.X c = (Boundary.X b + Boundary.Width b / 2)%float ->
             exists n, bounded n c) ->
  exists n, bounded n b.
Proof.
  intro H.
  assert (G : forall c,
             In c (let '(nw, ne, sw, se) := childBoundaries b in [nw; ne; sw; se]) ->
             exists n, bounded n c).
  { intros c Hc. destruct (child_shape b c Hc) as [HW HX]. now apply H. }
  destruct (childBoundaries b) as [[[nw ne] sw] se] eqn:E.
  destruct (G nw ltac:(cbn; auto)) as [n1 B1].
  destruct (G ne ltac:(cbn; auto)) as [n2 B2].
  destruct (G sw ltac:(cbn; auto)) as [n3 B3].
  destruct (G se ltac:(cbn; auto 6)) as [n4 B4].
  exists (S (n1 + n2 + n3 + n4)). apply bounded_split. rewrite E.
  intros c [<-|[<-|[<-|[<-|[]]]]]; eapply bounded_mono; eauto; lia.
Qed.

Lemma dead_zero_width (b : Boundary.t) (s : bool) :
  Prim2SF (Boundary.Width b) = S754_zero s -> forall p, Contains b p = false.
Proof.
  intro H. apply dead_of_keys. right. right.
  exact (zero_width_key (Boundary.X b) (Boundary.Width b) s H).
Qed.

(** Every boundary is bounded: by induction on the rank of the width. *)
Lemma bounded_by_rank (N : nat) :
  forall b, (Z.to_nat (rank (Prim2SF (Boundary.Width b))) < N)%nat ->
            exists n, bounded n b.
Proof.
  induction N as [|N IH]; intros b HN; [lia|].
  destruct (Prim2SF (Boundary.Width b)) as [s|s| |s m e] eqn:E.
  - exists 1%nat. apply bounded_dead. exact (dead_zero_width b s E).
  - apply bounded_of_children. intros c HW HX. exists 1%nat.
    apply bounded_dead. apply dead_of_keys.
    assert (E' : Prim2SF (Boundary.Width c) = S754_infinity s).
    { rewrite HW, Prim2SF_half, E. cbn. now destruct s. }
    unfold minX, maxX.
    destruct (inf_width_key (Boundary.X b) (Boundary.X c) (Boundary.Width c) s E')
      as [G|G]; auto.
    rewrite HW. exact HX.
  - exists 1%nat. apply bounded_dead. apply dead_of_keys. left.
    exact (nan_width_key (Boundary.X b) (Boundary.Width b) E).
  - apply bounded_of_children. intros c HW HX.
    pose proof (Prim2SF_valid (Boundary.Width b)) as V. rewrite E in V.
    pose proof (halve_finite s m e V) as Hh.
    rewrite <- E, <- Prim2SF_half, <- HW in Hh.
    destruct (Prim2SF (Boundary.Width c)) as [s'|s'| |s' m' e'] eqn:E';
      try contradiction.
    + exists 1%nat. apply bounded_dead. exact (dead_zero_width c s' E').
    + apply IH. rewrite E'. rewrite E in Hh. cbn [rank] in *. lia.
Qed.

Lemma bounded_exists (b : Boundary.t) : exists n, bounded n b.
Proof.
  exact (bounded_by_rank (S (Z.to_nat (rank (Prim2SF (Boundary.Width b))))) b
                         (Nat.lt_succ_diag_r _)).
Qed.

Lemma deep_mono (qt : QuadTree) :
  forall n m, deep n qt -> (n <= m)%nat -> deep m qt.
Proof.
  induction qt as [b c pts|b c pts nw IHnw ne IHne sw IHsw se IHse];
    intros n m H Hm; cbn [deep] in *.
  - eapply bounded_mono; eauto.
  - destruct n as [|n]; [contradiction|]. destruct m as [|m]; [lia|].
    destruct H as (H1 & H2 & H3 & H4).
    assert (n <= m)%nat by lia. eauto 10.
Qed.

Lemma deep_exists (qt : QuadTree) : exists n, deep n qt.
Proof.
  induction qt as [b c pts|b c pts nw [n1 H1] ne [n2 H2] sw [n3 H3] se [n4 H4]].
  - apply bounded_exists.
  - exists (S (n1 + n2 + n3 + n4)). cbn [deep].
    repeat split; eapply deep_mono; eauto; lia.
Qed.

Lemma insertChildren_total (n : nat)
    (ins : QuadTree -> Point.t -> result (bool * QuadTree))
    (qt : QuadTree) (p : Point.t) :
  insTotal n ins -> isLeaf qt = false -> deep (S n) qt ->
  exists r qt', insertChildren ins qt p = Some (r, qt') /\
                deep (S n) qt' /\ isLeaf qt' = false.
Proof.
  intros Hins Hleaf H.
  destruct qt as [|b c pts nw ne sw se]; [discriminate|].
  destruct H as (D1 & D2 & D3 & D4). unfold insertChildren.
  destruct (Hins nw p D1) as (r1 & nw' & -> & D1').
  destruct r1; [eexists _, _; split; [reflexivity|]; cbn; auto|].
  destruct (Hins ne p D2) as (r2 & ne' & -> & D2').
  destruct r2; [eexists _, _; split; [reflexivity|]; cbn; auto|].
  destruct (Hins sw p D3) as (r3 & sw' & -> & D3').
  destruct r3; [eexists _, _; split; [reflexivity|]; cbn; auto|].
  destruct (Hins se p D4) as (r4 & se' & -> & D4').
  eexists _, _; split; [reflexivity|]; cbn; auto.
Qed.

Lemma redistribute_total (n : nat)
    (ins : QuadTree -> Point.t -> result (bool * QuadTree))
    (oldPoints : list Point.t) :
  insTotal n ins ->
  forall qt, isLeaf qt = false -> deep (S n) qt ->
             exists qt', redistribute ins qt oldPoints = Some qt' /\
                         deep (S n) qt'.
Proof.
  intro Hins. induction oldPoints as [|pt rest IH]; intros qt Hleaf H; cbn.
  - eauto.
  - destruct (insertChildren_total n ins qt pt Hins Hleaf H)
      as (r & qt1 & -> & D & L).
    exact (IH qt1 L D).
Qed.

Lemma deep_subdivided (n : nat) (b : Boundary.t) (c : Z) (pts : list Point.t)
    (p : Point.t) :
  bounded (S n) b -> Contains b p = true ->
  deep (S n) (clearPoints (subdivide (Leaf b c pts))).
Proof.
  intros H Hc. inversion H as [? ? Hd|? ? Hs]; subst.
  - rewrite Hd in Hc. discriminate.
  - unfold subdivide. cbn [boundary capacity points].
    destruct (childBoundaries b) as [[[nw ne] sw] se].
    cbn. repeat split; apply Hs; cbn; auto 6.
Qed.

(** With [n] nested calls [Insert] returns on every tree that is [deep n]. *)
Lemma Insert_deep (n : nat) : insTotal n (Insert n).
Proof.
  induction n as [|n IH]; intros qt p H.
  - destruct qt; cbn in H; [inversion H|contradiction].
  - cbn [Insert]. destruct (Contains (boundary qt) p) eqn:Hc; cbn [negb].
    2:{ eauto. }
    destruct qt as [b c pts|b c pts nw ne sw se].
    + cbn [points capacity].
      destruct (Z.of_nat (length (pts ++ [p])) >? c)%Z; [|eauto].
      destruct (redistribute_total n (Insert n)
                  (points (subdivide (Leaf b c (pts ++ [p])))) IH
                  (clearPoints (subdivide (Leaf b c (pts ++ [p])))))
        as (qt' & -> & D).
      * unfold subdivide. cbn [boundary]. now destruct (childBoundaries b) as [[[? ?] ?] ?].
      * exact (deep_subdivided n b c _ p H Hc).
      * eauto.
    + destruct (insertChildren_total n (Insert n) (Quad b c pts nw ne sw se) p
                  IH eq_refl H) as (r & qt' & E & D & _).
      eauto.
Qed.

(** ** More fuel changes nothing *)

Lemma insertChildren_extends
    (ins ins' : QuadTree -> Point.t -> result (bool * QuadTree)) :
  extends ins ins' -> extends (insertChildren ins) (insertChildren ins').
Proof.
  intros H qt p x. destruct qt as [|b c pts nw ne sw se]; [auto|].
  unfold insertChildren.
  destruct (ins nw p) as [[[|] nw']|] eqn:E1; try discriminate;
    rewrite (H _ _ _ E1); [auto|].
  destruct (ins ne p) as [[[|] ne']|] eqn:E2; try discriminate;
    rewrite (H _ _ _ E2); [auto|].
  destruct (ins sw p) as [[[|] sw']|] eqn:E3; try discriminate;
    rewrite (H _ _ _ E3); [auto|].
  destruct (ins se p) as [[r se']|] eqn:E4; try discriminate;
    rewrite (H _ _ _ E4); auto.
Qed.

Lemma redistribute_extends
    (ins ins' : QuadTree -> Point.t -> result (bool * QuadTree))
    (oldPoints : list Point.t) :
  extends ins ins' ->
  forall qt qt', redistribute ins qt oldPoints = Some qt' ->
                 redistribute ins' qt oldPoints = Some qt'.
Proof.
  intro H. induction oldPoints as [|pt rest IH]; intros qt qt'; cbn; [auto|].
  destruct (insertChildren ins qt pt) as [[r qt1]|] eqn:E; [|discriminate].
  rewrite (insertChildren_extends ins ins' H _ _ _ E). apply IH.
Qed.

Lemma Insert_fuel_S (n : nat) : extends (Insert n) (Insert (S n)).
Proof.
  induction n as [|n IH]; intros qt p x; [discriminate|].
  change (Insert (S n) qt p) with
    (if negb (Contains (boundary qt) p) then Some (false, qt)
     else match qt with
          | Quad _ _ _ _ _ _ _ => insertChildren (Insert n) qt p
          | Leaf b c pts =>
            let qt1 := Leaf b c (pts ++ [p]) in
            if (Z.of_nat (length (points qt1)) >? capacity qt1)%Z then
              let qt2 := subdivide qt1 in
              let oldPoints := points qt2 in
              match redistribute (Insert n) (clearPoints qt2) oldPoints with
              | None => None
              | Some qt3 => Some (true, qt3)
              end
            else Some (true, qt1)
          end).
  change (Insert (S (S n)) qt p) with
    (if negb (Contains (boundary qt) p) then Some (false, qt)
     else match qt with
          | Quad _ _ _ _ _ _ _ => insertChildren (Insert (S n)) qt p
          | Leaf b c pts =>
            let qt1 := Leaf b c (pts ++ [p]) in
            if (Z.of_nat (length (points qt1)) >? capacity qt1)%Z then
              let qt2 := subdivide qt1 in
              let oldPoints := points qt2 in
              match redistribute (Insert (S n)) (clearPoints qt2) oldPoints with
              | None => None
              | Some qt3 => Some (true, qt3)
              end
            else Some (true, qt1)
          end).
  destruct (negb (Contains (boundary qt) p)); [auto|].
  destruct qt as [b c pts|b c pts nw ne sw se].
  - cbv zeta. destruct (_ >? _)%Z; [|auto].
    destruct (redistribute (Insert n) _ _) as [qt3|] eqn:E; [|discriminate].
    now rewrite (redistribute_extends _ _ _ IH _ _ E).
  - apply insertChildren_extends. exact IH.
Qed.

Lemma Insert_fuel_le (n m : nat) : (n <= m)%nat -> extends (Insert n) (Insert m).
Proof.
  induction 1 as [|m _ IH]; intros qt p x H; [exact H|].
  apply Insert_fuel_S. now apply IH.
Qed.

(** [Insert] returns: from some depth of nested calls on, the model gives
    one and the same answer. *)
Lemma Insert_total (qt : QuadTree) (p : Point.t) :
  exists fuel r qt',
    forall fuel', (fuel <= fuel')%nat -> Insert fuel' qt p = Some (r, qt').
Proof.
  destruct (deep_exists qt) as [n H].
  destruct (Insert_deep n qt p H) as (r & qt' & E & _).
  exists n, r, qt'. intros fuel' Hle. exact (Insert_fuel_le n fuel' Hle _ _ _ E).
Qed.

End Termination.

(** * The tests of the package

    [TestQuadTreeInsert] and [TestQuadTreeQuery], run on the model. *)

Module Tests.
Import Ex.
Open Scope float_scope.

Example insert_below_capacity :
  Ex.qt2 = Leaf world 2 [p1; p2].
Proof. reflexivity. Qed.

Example insert_forces_subdivision :
  points Ex.qt3 = [] /\ isLeaf Ex.qt3 = false /\
  points (child NW Ex.qt3) = [p1] /\ points (child NE Ex.qt3) = [p2] /\
  points (child SW Ex.qt3) = [p3] /\ points (child SE Ex.qt3) = [].
Proof. repeat split. Qed.

Example insert_into_subdivided :
  points (child SE Ex.qt4) = [p4].
Proof. reflexivity. Qed.

Example query_tests :
  snd (Query Ex.qt5 searchNE) = [p2; p5] /\
  snd (Query Ex.qt5 (Boundary.mk 0 0 10 10)) = [] /\
  length (snd (Query Ex.qt5 world)) = 5%nat /\
  snd (Query Ex.qt5 (Boundary.mk 0 (-50) 100 50)) = [p3; p4].
Proof. repeat split; vm_compute; reflexivity. Qed.

(** Scenario S6 of the specification. *)
Example remove_scenario :
  fst (Remove Ex.qt5 p2) = true /\
  snd (Query (snd (Remove Ex.qt5 p2)) searchNE) = [p5] /\
  fst (Remove (snd (Remove Ex.qt5 p2)) p2) = false.
Proof. repeat split; vm_compute; reflexivity. Qed.

(** Three copies of one point with capacity 2: 55 levels of subdivision,
    at the end of which rounding makes the children accept nothing. *)
Example duplicates_are_lost :
  Insert 54 Ex.dup2 dup = None /\
  Insert 58 Ex.dup2 dup = Some (true, Ex.dup3) /\
  allPoints Ex.dup3 = [] /\
  snd (Query Ex.dup3 world) = [].
Proof. repeat split; vm_compute; reflexivity. Qed.

End Tests.

(** * The specification, claim by claim *)

Import Geometry Bucket Tiling Tree Termination.

(** [reachable] for the example trees: each step is a call of [Insert]
    evaluated on the tree before it. *)
Ltac step_from qt p :=
  apply (reach_insert qt _ 64 p true); [|vm_compute; reflexivity].

Ltac reach_tests :=
  repeat match goal with
         | |- reachable Ex.qt5 => step_from Ex.qt4 Ex.p5
         | |- reachable Ex.qt4 => step_from Ex.qt3 Ex.p4
         | |- reachable Ex.qt3 => step_from Ex.qt2 Ex.p3
         | |- reachable Ex.qt2 => step_from Ex.qt1 Ex.p2
         | |- reachable Ex.qt1 => step_from Ex.qt0 Ex.p1
         | |- reachable Ex.qt0 => exact (reach_new Ex.world 2)
         | |- reachable Ex.dup3 => step_from Ex.dup2 Ex.dup
         | |- reachable Ex.dup2 => step_from Ex.dup1 Ex.dup
         | |- reachable Ex.dup1 => step_from Ex.qt0 Ex.dup
         | |- reachable Ex.big2 => step_from Ex.big1 Ex.westOf
         | |- reachable Ex.big1 => step_from Ex.big0 Ex.overlap
         | |- reachable Ex.big0 => exact (reach_new Ex.big 1)
         | |- reachable Ex.lone1 =>
           apply (reach_insert (NewQuadTree Ex.big 1) _ 64 Ex.onCentre true);
           [exact (reach_new Ex.big 1)|vm_compute; reflexivity]
         end.

(** C1. On every tree built by a sequence of insertions and removals, and
    for every query rectangle, [Query] returns exactly the stored points
    that the rectangle [Contains] -- the same list, hence the same
    multiset; the pruning by [Intersects] skips no stored point that
    matches. *)
Theorem Query_returns_contained (qt : QuadTree) (rangeRect : Boundary.t) :
  reachable qt ->
  snd (Query qt rangeRect) = filter (Contains rangeRect) (allPoints qt) /\
  Permutation (snd (Query qt rangeRect))
              (filter (Contains rangeRect) (allPoints qt)) /\
  (forall p, In p (allPoints qt) -> Contains rangeRect p = true ->
             In p (snd (Query qt rangeRect))).
Proof.
  intro H. apply reachable_inv in H.
  assert (E : snd (Query qt rangeRect) = filter (Contains rangeRect) (allPoints qt))
    by (unfold Query; now rewrite queryRecursive_found).
  split; [exact E|]. split; [now rewrite E|].
  intros p Hp Hc. rewrite E. apply filter_In. auto.
Qed.

Lemma Query_returns_contained_witness :
  reachable Ex.qt5 /\
  snd (Query Ex.qt5 Ex.searchNE) = filter (Contains Ex.searchNE) (allPoints Ex.qt5).
Proof.
  assert (H : reachable Ex.qt5) by reach_tests.
  split; [exact H|].
  exact (proj1 (Query_returns_contained Ex.qt5 Ex.searchNE H)).
Defined.

(** C5. On a reachable tree [Insert] returns, and after any call that
    returned every leaf holds at most [capacity] entries and the bucket of
    every internal node is empty. *)
Theorem Insert_buckets_bounded (qt : QuadTree) (p : Point.t) :
  reachable qt ->
  (exists fuel r qt', Insert fuel qt p = Some (r, qt')) /\
  (forall fuel r qt',
      Insert fuel qt p = Some (r, qt') ->
      bucketsBounded (capacity qt') qt' /\
      capacity qt' = capacity qt /\ (1 <= capacity qt')%Z).
Proof.
  intro H. apply reachable_inv in H. split.
  - destruct (Insert_total qt p) as (fuel & r & qt' & E).
    exists fuel, r, qt'. apply E. lia.
  - intros fuel r qt' E.
    destruct (Insert_post fuel qt p r qt' H E) as [I _ C _ _ _ _ _].
    auto using inv_bucketsBounded, inv_capacity.
Qed.

Lemma Insert_buckets_bounded_witness :
  (reachable Ex.qt2 /\ Insert 64 Ex.qt2 Ex.p3 = Some (true, Ex.qt3)) /\
  bucketsBounded (capacity Ex.qt3) Ex.qt3 /\
  capacity Ex.qt3 = capacity Ex.qt2 /\ (1 <= capacity Ex.qt3)%Z.
Proof.
  assert (H : reachable Ex.qt2) by reach_tests.
  assert (E : Insert 64 Ex.qt2 Ex.p3 = Some (true, Ex.qt3))
    by (vm_compute; reflexivity).
  split; [split; [exact H|exact E]|].
  exact (proj2 (Insert_buckets_bounded Ex.qt2 Ex.p3 H) 64%nat true Ex.qt3 E).
Defined.

(** C9. [Query] gives back the tree it was called on: structure,
    boundaries, capacities and buckets are those before the call. *)
Theorem Query_frame (qt : QuadTree) (rangeRect : Boundary.t) :
  fst (Query qt rangeRect) = qt.
Proof. apply queryRecursive_frame. Qed.

(** C8. [Intersects a b] holds exactly when none of the four separation
    tests does; rectangles that share only an edge do not intersect; and
    rectangles with a common point do. *)
Theorem Intersects_spec (a b : Boundary.t) :
  Intersects a b =
  negb ((maxX a <=? minX b)%float || (maxX b <=? minX a)%float ||
        (maxY a <=? minY b)%float || (maxY b <=? minY a)%float) /\
  ((maxX a =? minX b)%float = true \/ (maxX b =? minX a)%float = true \/
   (maxY a =? minY b)%float = true \/ (maxY b =? minY a)%float = true ->
   Intersects a b = false) /\
  (forall p, Contains a p = true -> Contains b p = true ->
             Intersects a b = true).
Proof.
  split; [apply Intersects_separation|]. split.
  - rewrite Intersects_separation.
    intros [H|[H|[H|H]]]; apply F64Facts.eqb_leb in H; rewrite H;
      rewrite ?orb_true_r; reflexivity.
  - intro p. apply Contains_Intersects.
Qed.

Lemma Intersects_spec_witness :
  Intersects (boundary (child NW Ex.qt5)) (boundary (child NE Ex.qt5)) = false /\
  Intersects Ex.world Ex.searchNE = true.
Proof.
  split.
  - apply (proj1 (proj2 (Intersects_spec (boundary (child NW Ex.qt5))
                                       (boundary (child NE Ex.qt5))))).
    left. vm_compute. reflexivity.
  - apply (proj2 (proj2 (Intersects_spec Ex.world Ex.searchNE)) Ex.p2);
      vm_compute; reflexivity.
Defined.

(** Helpers on [Remove] shared by the claims below. *)
Lemma Remove_true_iff (qt : QuadTree) (p : Point.t) :
  inv qt ->
  fst (Remove qt p) = true <->
  exists e, In e (allPoints qt) /\ exactMatch e p = true.
Proof.
  intro H. pose proof (Remove_post qt p H) as [_ _ _ F T _].
  destruct (fst (Remove qt p)).
  - split; [intros _|reflexivity].
    destruct (T eq_refl) as (e & He & HP). exists e. split; [|exact He].
    eapply Permutation_in; [symmetry; exact HP|]. now left.
  - split; [discriminate|]. intros (e & He & Hm).
    destruct (F eq_refl) as [_ N]. rewrite (N e He) in Hm. discriminate.
Qed.

Lemma Remove_matchCount (qt : QuadTree) (p : Point.t) :
  inv qt -> fst (Remove qt p) = true ->
  matchCount p (allPoints qt) = S (matchCount p (allPoints (snd (Remove qt p)))).
Proof.
  intros H Hr. pose proof (Remove_post qt p H) as [_ _ _ _ T _].
  destruct (T Hr) as (e & He & HP).
  now rewrite (matchCount_perm p _ _ HP), matchCount_cons, He.
Qed.



(** C10. [Remove] takes out one entry per call: when [k >= 1] stored
    entries equal [p], one call returns true and leaves [k - 1] of them,
    and the other entries are the same multiset as before. *)
Theorem Remove_one_entry (qt : QuadTree) (p : Point.t) (k : nat) :
  reachable qt -> matchCount p (allPoints qt) = k -> (1 <= k)%nat ->
  fst (Remove qt p) = true /\
  matchCount p (allPoints (snd (Remove qt p))) = (k - 1)%nat /\
  length (allPoints (snd (Remove qt p))) = (length (allPoints qt) - 1)%nat /\
  Permutation
    (filter (fun e => negb (exactMatch e p)) (allPoints qt))
    (filter (fun e => negb (exactMatch e p)) (allPoints (snd (Remove qt p)))).
Proof.
  intros H Hk Hpos. apply reachable_inv in H.
  assert (Hr : fst (Remove qt p) = true).
  { apply (Remove_true_iff qt p H).
    destruct (filter (fun e => exactMatch e p) (allPoints qt)) as [|e l] eqn:E.
    - unfold matchCount in Hk. rewrite E in Hk. cbn in Hk. lia.
    - assert (G : In e (filter (fun e => exactMatch e p) (allPoints qt)))
        by (rewrite E; now left).
      apply filter_In in G. exists e. exact G. }
  split; [exact Hr|].
  pose proof (Remove_matchCount qt p H Hr) as Hm.
  split; [lia|].
  pose proof (Remove_post qt p H) as [_ _ _ _ T _].
  destruct (T Hr) as (e & He & HP).
  split.
  - apply Permutation_length in HP. cbn in HP. lia.
  - rewrite (filter_perm _ _ _ HP). cbn. now rewrite He.
Qed.

Lemma Remove_one_entry_witness :
  (reachable Ex.dup2 /\ matchCount Ex.dup (allPoints Ex.dup2) = 2%nat /\
   (1 <= 2)%nat) /\
  fst (Remove Ex.dup2 Ex.dup) = true /\
  matchCount Ex.dup (allPoints (snd (Remove Ex.dup2 Ex.dup))) = 1%nat.
Proof.
  assert (H : reachable Ex.dup2) by reach_tests.
  assert (E : matchCount Ex.dup (allPoints Ex.dup2) = 2%nat)
    by (vm_compute; reflexivity).
  assert (L : (1 <= 2)%nat) by lia.
  split; [auto|].
  destruct (Remove_one_entry Ex.dup2 Ex.dup 2 H E L) as (R & M & _).
  split; [exact R|exact M].
Defined.

(** C7, as the specification states it, does not hold.  [Remove] looks
    for an entry whose payload is [==] to the payload of its argument,
    and a payload that is a NaN is not [==] to itself: the point (50, 50)
    with such a payload is inserted into the empty tree of the tests,
    which stores no equal entry; [Remove] of the same point then returns
    false and leaves the tree as it is, and a query of the whole world
    returns the point. *)
Lemma unequal_payload_survives_Remove :
  reachable Ex.qt0 /\
  matchCount Ex.unequal (allPoints Ex.qt0) = 0%nat /\
  Insert 64 Ex.qt0 Ex.unequal = Some (true, Ex.nan1) /\
  Remove Ex.nan1 Ex.unequal = (false, Ex.nan1) /\
  In Ex.unequal (snd (Query (snd (Remove Ex.nan1 Ex.unequal))
                            (boundary (snd (Remove Ex.nan1 Ex.unequal))))).
Proof.
  split; [reach_tests|].
  repeat split; try (vm_compute; reflexivity).
  vm_compute. left. reflexivity.
Qed.

(** C7, amended.  If [p] is inserted into a reachable tree that stores no
    entry equal to it (the call returns) and is then removed, a query of
    the whole world returns no entry that is [==] to [p] in coordinates
    and payload; it does not return [p] when the payload of [p] is [==]
    to itself.  When the payload of [p] is not [==] to itself, [Remove]
    returns false and leaves the tree as the insertion left it. *)
Theorem Insert_then_Remove (qt : QuadTree) (p : Point.t) :
  reachable qt -> matchCount p (allPoints qt) = 0%nat ->
  (exists fuel r qt1, Insert fuel qt p = Some (r, qt1)) /\
  (forall fuel r qt1,
      Insert fuel qt p = Some (r, qt1) ->
      (Payload_eqb (Point.Data p) (Point.Data p) = true ->
       ~ In p (snd (Query (snd (Remove qt1 p)) (boundary (snd (Remove qt1 p)))))) /\
      (forall e,
          In e (snd (Query (snd (Remove qt1 p)) (boundary (snd (Remove qt1 p))))) ->
          exactMatch e p = false) /\
      (Payload_eqb (Point.Data p) (Point.Data p) = false ->
       Remove qt1 p = (false, qt1))).
Proof.
  intros H Hnone. apply reachable_inv in H. split.
  { destruct (Insert_total qt p) as (fuel & r & qt' & E).
    exists fuel, r, qt'. apply E. lia. }
  intros fuel r qt1 E.
  destruct (Insert_post fuel qt p r qt1 H E) as [I1 _ _ _ _ P _ _].
  assert (Hle : (matchCount p (allPoints qt1) <= 1)%nat).
  { apply matchCount_submset with (p := p) in P.
    destruct r; [rewrite matchCount_cons in P; destruct (exactMatch p p)|]; lia. }
  pose proof (Remove_post qt1 p I1) as [I2 _ _ F T _].
  assert (Z : forall e, In e (allPoints (snd (Remove qt1 p))) ->
                        exactMatch e p = false).
  { destruct (fst (Remove qt1 p)) eqn:Hr.
    - pose proof (Remove_matchCount qt1 p I1 Hr) as Hm.
      apply matchCount_zero. lia.
    - destruct (F eq_refl) as [-> N]. exact N. }
  assert (Q : forall e,
             In e (snd (Query (snd (Remove qt1 p))
                              (boundary (snd (Remove qt1 p))))) ->
             In e (allPoints (snd (Remove qt1 p)))).
  { intros e He. unfold Query in He.
    rewrite queryRecursive_found in He by exact I2.
    cbn [app] in He. apply filter_In in He. tauto. }
  split; [|split].
  - intros HD Hp. apply Q in Hp.
    pose proof (inv_within _ I2) as W. unfold within in W.
    rewrite Forall_forall in W.
    specialize (Z p Hp). rewrite (exactMatch_refl _ p (W p Hp) HD) in Z.
    discriminate.
  - intros e He. auto.
  - intro HD.
    assert (Hr : fst (Remove qt1 p) = false).
    { destruct (fst (Remove qt1 p)) eqn:Hr; [exfalso|reflexivity].
      destruct (T eq_refl) as (e & He & _).
      unfold exactMatch in He. rewrite !andb_true_iff in He.
      destruct He as [[He _] _].
      rewrite (Payload_eqb_irrefl _ _ HD) in He. discriminate. }
    destruct (F Hr) as [Hq _].
    rewrite (surjective_pairing (Remove qt1 p)), Hr, Hq. reflexivity.
Qed.

Lemma Insert_then_Remove_witness :
  (reachable Ex.qt4 /\ matchCount Ex.p5 (allPoints Ex.qt4) = 0%nat /\
   Insert 64 Ex.qt4 Ex.p5 = Some (true, Ex.qt5) /\
   Payload_eqb (Point.Data Ex.p5) (Point.Data Ex.p5) = true) /\
  ~ In Ex.p5 (snd (Query (snd (Remove Ex.qt5 Ex.p5))
                         (boundary (snd (Remove Ex.qt5 Ex.p5))))).
Proof.
  assert (H : reachable Ex.qt4) by reach_tests.
  assert (N : matchCount Ex.p5 (allPoints Ex.qt4) = 0%nat)
    by (vm_compute; reflexivity).
  assert (E : Insert 64 Ex.qt4 Ex.p5 = Some (true, Ex.qt5))
    by (vm_compute; reflexivity).
  assert (D : Payload_eqb (Point.Data Ex.p5) (Point.Data Ex.p5) = true)
    by (vm_compute; reflexivity).
  split; [auto|].
  exact (proj1 (proj2 (Insert_then_Remove Ex.qt4 Ex.p5 H N) 64%nat true Ex.qt5 E) D).
Defined.

(** C3, as the specification states it, does not hold: a point on the
    upper edge of a node does not satisfy the node's [Contains], so no
    such point is accepted and then lost. *)
Lemma upper_edge_never_lost : ~ upperEdgeLoss.
Proof.
  intros (b & c & pts & p & q & fuel & qt' & _ & Hc & He & _).
  rewrite (Contains_upper_edge b p He) in Hc. discriminate.
Qed.

(** C3, amended.  A point accepted by a node can be lost when the node
    subdivides ([roundingLoss]: rounding leaves a gap between the children
    of the node centred at 2^53), but never a point on the upper edge: such
    a point fails [Contains], and [Insert] returns false and leaves the
    node as it was. *)
Theorem loss_is_not_on_the_edge :
  roundingLoss /\
  (forall (qt : QuadTree) (p : Point.t) (fuel : nat),
      (Point.X p =? maxX (boundary qt))%float = true \/
      (Point.Y p =? maxY (boundary qt))%float = true ->
      Contains (boundary qt) p = false /\
      Insert (S fuel) qt p = Some (false, qt)).
Proof.
  split.
  - exists Ex.big, 1%Z, [Ex.onCentre], Ex.onCentre, Ex.onCentre, 64%nat.
    eexists. split; [now left|].
    split; [vm_compute; reflexivity|].
    split; [vm_compute; reflexivity|].
    split; [reflexivity|].
    split; [vm_compute; reflexivity|].
    intros [].
  - intros qt p fuel He.
    pose proof (Contains_upper_edge (boundary qt) p He) as Hc.
    split; [exact Hc|]. now apply Insert_outside.
Qed.

Lemma loss_is_not_on_the_edge_witness :
  (Point.X (Point.mk 100 0 PNil) =? maxX (boundary Ex.qt5))%float = true /\
  Contains (boundary Ex.qt5) (Point.mk 100 0 PNil) = false /\
  Insert 64 Ex.qt5 (Point.mk 100 0 PNil) = Some (false, Ex.qt5).
Proof.
  assert (He : (Point.X (Point.mk 100 0 PNil) =? maxX (boundary Ex.qt5))%float = true)
    by (vm_compute; reflexivity).
  split; [exact He|].
  exact (proj2 loss_is_not_on_the_edge Ex.qt5 (Point.mk 100 0 PNil) 63%nat
               (or_introl He)).
Defined.

(** C4, as the specification states it, does not hold: rounding moves the
    edges of the children of the boundary centred at 2^53, so that a point
    of the parent lies in no child, another lies in two children, and a
    stored point of a reachable tree lies in the boundaries of two
    leaves. *)
Lemma children_do_not_tile :
  (Contains Ex.big Ex.onCentre = true /\ childHits Ex.big Ex.onCentre = 0%nat) /\
  (Contains Ex.big Ex.overlap = true /\ childHits Ex.big Ex.overlap = 2%nat) /\
  (reachable Ex.big2 /\ In Ex.overlap (allPoints Ex.big2) /\
   leafHits Ex.overlap Ex.big2 = 2%nat).
Proof.
  repeat split; try (vm_compute; reflexivity).
  - reach_tests.
  - cbn. right. now left.
Qed.

(** C4, amended.  Where the subdivision of a boundary is exact (rounding
    moved no edge of a child), exactly one child accepts each point of the
    parent; and in a reachable tree all of whose subdivisions are exact,
    each stored point lies in the boundary of exactly one leaf. *)
Theorem exact_children_tile :
  (forall (b : Boundary.t) (p : Point.t),
      exactSplit b = true -> Contains b p = true -> childHits b p = 1%nat) /\
  (forall (qt : QuadTree) (p : Point.t),
      reachable qt -> exactTree qt = true -> In p (allPoints qt) ->
      leafHits p qt = 1%nat).
Proof.
  split; [exact exactSplit_childHits|].
  intros qt p H Hx Hp. apply reachable_inv in H.
  rewrite (leafHits_exact qt p H Hx).
  pose proof (inv_within qt H) as W. unfold within in W.
  rewrite Forall_forall in W. now rewrite (W p Hp).
Qed.

Lemma exact_children_tile_witness :
  (exactSplit Ex.world = true /\ Contains Ex.world Ex.p2 = true /\
   reachable Ex.qt5 /\ exactTree Ex.qt5 = true /\ In Ex.p2 (allPoints Ex.qt5)) /\
  childHits Ex.world Ex.p2 = 1%nat /\ leafHits Ex.p2 Ex.qt5 = 1%nat.
Proof.
  assert (H1 : exactSplit Ex.world = true) by (vm_compute; reflexivity).
  assert (H2 : Contains Ex.world Ex.p2 = true) by (vm_compute; reflexivity).
  assert (H3 : reachable Ex.qt5) by reach_tests.
  assert (H4 : exactTree Ex.qt5 = true) by (vm_compute; reflexivity).
  assert (H5 : In Ex.p2 (allPoints Ex.qt5)) by (cbn; right; now left).
  split; [auto 6|]. split.
  - exact (proj1 exact_children_tile Ex.world Ex.p2 H1 H2).
  - exact (proj2 exact_children_tile Ex.qt5 Ex.p2 H3 H4 H5).
Defined.

(** A leaf whose boundary contains the point answers true. *)
Lemma Insert_leaf_true (fuel : nat) (qt qt' : QuadTree) (p : Point.t) (r : bool) :
  isLeaf qt = true -> Contains (boundary qt) p = true ->
  Insert fuel qt p = Some (r, qt') -> r = true.
Proof.
  intros Hl Hc. destruct qt as [b c pts|]; [|discriminate].
  destruct fuel as [|fuel]; [discriminate|]. cbn [Insert].
  rewrite Hc. cbn [negb points capacity].
  destruct (_ >? _)%Z.
  - destruct (redistribute _ _ _); [|discriminate]. now intros [= <- _].
  - now intros [= <- _].
Qed.

(** An internal node none of whose children contains the point answers
    false. *)
Lemma Insert_children_reject (fuel : nat) (qt qt' : QuadTree) (p : Point.t)
    (r : bool) :
  inv qt -> isLeaf qt = false -> childHits (boundary qt) p = 0%nat ->
  Insert fuel qt p = Some (r, qt') -> r = false.
Proof.
  intros Hinv Hl Hh E. destruct r; [exfalso|reflexivity].
  destruct fuel as [|fuel]; [discriminate|]. cbn [Insert] in E.
  destruct (Contains (boundary qt) p); cbn [negb] in E; [|discriminate].
  destruct qt as [|b c pts nw ne sw se]; [discriminate|].
  destruct (insertChildren_true_child (Insert fuel) _ qt' p (Insert_post fuel) Hinv E)
    as [k Hk].
  destruct Hinv as (_ & _ & HB & _).
  unfold childHits in Hh. cbn [boundary] in Hh. rewrite <- HB in Hh.
  cbn [filter] in Hh.
  destruct k; cbn [child] in Hk; rewrite Hk in Hh;
    repeat match goal with
           | H : context [Contains ?b p] |- _ => destruct (Contains b p)
           end; discriminate.
Qed.

(** C2, as the specification states it, does not hold.  Over the
    boundary centred at 2^53 with capacity 1 the second insertion of the
    centre point returns true and the point is stored nowhere afterwards:
    the east children start at 2^53 - 1 and end at 2^53, which the sum
    2^53 + 1 rounds to.  The same happens in the world of the package's
    tests with capacity 2 at the third insertion of one point.  And on a
    subdivided tree around 2^53 [Insert] returns false for a point inside
    the root's boundary. *)
Lemma Insert_answer_and_storage_differ :
  (reachable Ex.lone1 /\
   Insert 64 Ex.lone1 Ex.onCentre = Some (true, Ex.lone2) /\
   allPoints Ex.lone2 = []) /\
  (reachable Ex.dup2 /\
   Insert 64 Ex.dup2 Ex.dup = Some (true, Ex.dup3) /\
   allPoints Ex.dup3 = []) /\
  (reachable Ex.big2 /\
   Contains (boundary Ex.big2) Ex.onCentre = true /\
   Insert 64 Ex.big2 Ex.onCentre = Some (false, Ex.big2)).
Proof.
  repeat split; try (vm_compute; reflexivity); reach_tests.
Qed.

(** C2, amended.  On a reachable tree [Insert p] returns.  It returns
    false when [p] is outside the root's boundary, and whenever it returns
    false the tree is left as it was; it returns true only for a point
    inside the root's boundary, always for such a point when the root is a
    leaf, and never when the root is internal and no child's boundary
    contains the point.  If every subdivision of the resulting tree is exact, it
    returns false exactly when [p] is outside the root's boundary and,
    when it returns true, [p] is stored: the stored points are those
    before the call and [p]. *)
Theorem Insert_result (qt : QuadTree) (p : Point.t) :
  reachable qt ->
  exists fuel r qt',
    (forall fuel', (fuel <= fuel')%nat -> Insert fuel' qt p = Some (r, qt')) /\
    (Contains (boundary qt) p = false -> r = false) /\
    (r = false -> qt' = qt) /\
    (r = true -> Contains (boundary qt) p = true) /\
    (isLeaf qt = true -> Contains (boundary qt) p = true -> r = true) /\
    (isLeaf qt = false -> childHits (boundary qt) p = 0%nat -> r = false) /\
    (exactTree qt' = true ->
     (r = false <-> Contains (boundary qt) p = false) /\
     (r = true -> Permutation (allPoints qt') (p :: allPoints qt))).
Proof.
  intro H. apply reachable_inv in H.
  destruct (Insert_total qt p) as (fuel & r & qt' & E).
  exists fuel, r, qt'. split; [exact E|].
  specialize (E fuel (Nat.le_refl fuel)).
  destruct (Insert_post fuel qt p r qt' H E) as [_ _ _ F T _ _ _].
  assert (O : Contains (boundary qt) p = false -> r = false).
  { intro Hc. destruct r; [|reflexivity]. rewrite (T eq_refl) in Hc. discriminate. }
  split; [exact O|]. split; [exact F|]. split; [exact T|].
  split; [intros Hl Hc; exact (Insert_leaf_true fuel qt qt' p r Hl Hc E)|].
  split; [intros Hl Hh; exact (Insert_children_reject fuel qt qt' p r H Hl Hh E)|].
  intro Hx. split.
  - split; [|exact O]. intros ->.
    destruct (Contains (boundary qt) p) eqn:Hc; [|reflexivity].
    destruct (Insert_exact fuel qt p false qt' H Hx Hc E). discriminate.
  - intro Hr. exact (proj2 (Insert_exact fuel qt p r qt' H Hx (T Hr) E)).
Qed.

Lemma Insert_result_witness :
  reachable Ex.qt4 /\
  exists fuel r qt',
    (forall fuel', (fuel <= fuel')%nat -> Insert fuel' Ex.qt4 Ex.p5 = Some (r, qt')) /\
    (Contains (boundary Ex.qt4) Ex.p5 = false -> r = false) /\
    (r = false -> qt' = Ex.qt4) /\
    (r = true -> Contains (boundary Ex.qt4) Ex.p5 = true) /\
    (isLeaf Ex.qt4 = true -> Contains (boundary Ex.qt4) Ex.p5 = true -> r = true) /\
    (isLeaf Ex.qt4 = false -> childHits (boundary Ex.qt4) Ex.p5 = 0%nat -> r = false) /\
    (exactTree qt' = true ->
     (r = false <-> Contains (boundary Ex.qt4) Ex.p5 = false) /\
     (r = true -> Permutation (allPoints qt') (Ex.p5 :: allPoints Ex.qt4))).
Proof.
  assert (H : reachable Ex.qt4) by reach_tests.
  split; [exact H|].
  exact (Insert_result Ex.qt4 Ex.p5 H).
Defined.

(** * Further properties of the code *)

(** ** Helpers *)

Module Structure.
Import F64 F64Facts.

Lemma inv_bucketsWithin (qt : QuadTree) : inv qt -> bucketsWithin qt.
Proof.
  induction qt as [b c pts|b c pts nw IHnw ne IHne sw IHsw se IHse]; cbn.
  - tauto.
  - intros (_ & -> & _ & _ & W & I1 & I2 & I3 & I4).
    cbn [app]. repeat split; auto.
Qed.

Lemma inv_geometry (qt : QuadTree) : inv qt -> subdivided (capacity qt) qt.
Proof.
  induction qt as [b c pts|b c pts nw IHnw ne IHne sw IHsw se IHse]; cbn.
  - reflexivity.
  - intros (_ & _ & HB & (C1 & C2 & C3 & C4) & _ & I1 & I2 & I3 & I4).
    specialize (IHnw I1). specialize (IHne I2).
    specialize (IHsw I3). specialize (IHse I4).
    rewrite C1 in IHnw. rewrite C2 in IHne. rewrite C3 in IHsw. rewrite C4 in IHse.
    auto 6.
Qed.

Lemma submset_In (l1 l2 : list Point.t) (x : Point.t) :
  submset l1 l2 -> In x l1 -> In x l2.
Proof.
  intros [d Hd] Hx. eapply Permutation_in; [exact Hd|].
  apply in_or_app. now left.
Qed.

Lemma submset_length (l1 l2 : list Point.t) :
  submset l1 l2 -> (length l1 <= length l2)%nat.
Proof.
  intros [d Hd]. apply Permutation_length in Hd. rewrite length_app in Hd. lia.
Qed.

Lemma submset_filter_length (f : Point.t -> bool) (l1 l2 : list Point.t) :
  submset l1 l2 -> (length (filter f l1) <= length (filter f l2))%nat.
Proof.
  intros [d Hd]. apply (filter_perm f) in Hd. apply Permutation_length in Hd.
  rewrite filter_app, length_app in Hd. lia.
Qed.

Lemma filter_within (b : Boundary.t) (l : list Point.t) :
  within b l -> filter (Contains b) l = l.
Proof.
  induction 1 as [|p l Hp _ IH]; cbn; [reflexivity|]. now rewrite Hp, IH.
Qed.

Lemma grows_refl (qt : QuadTree) : grows qt qt.
Proof.
  induction qt; cbn; auto 7.
Qed.

Lemma insertChildren_root
    (ins : QuadTree -> Point.t -> result (bool * QuadTree))
    (qt qt' : QuadTree) (p : Point.t) (r : bool) :
  insertChildren ins qt p = Some (r, qt') ->
  boundary qt' = boundary qt /\ capacity qt' = capacity qt.
Proof.
  destruct qt as [b c pts|b c pts nw ne sw se]; cbn.
  - now intros [= <- <-].
  - destruct (ins nw p) as [[[|] ?]|]; try discriminate; [now intros [= <- <-]|].
    destruct (ins ne p) as [[[|] ?]|]; try discriminate; [now intros [= <- <-]|].
    destruct (ins sw p) as [[[|] ?]|]; try discriminate; [now intros [= <- <-]|].
    destruct (ins se p) as [[? ?]|]; try discriminate. now intros [= <- <-].
Qed.

Definition growsSpec (ins : QuadTree -> Point.t -> result (bool * QuadTree))
  : Prop :=
  forall qt p r qt', ins qt p = Some (r, qt') -> grows qt qt'.

Lemma insertChildren_grows
    (ins : QuadTree -> Point.t -> result (bool * QuadTree))
    (qt qt' : QuadTree) (p : Point.t) (r : bool) :
  growsSpec ins -> insertChildren ins qt p = Some (r, qt') -> grows qt qt'.
Proof.
  intro H. destruct qt as [b c pts|b c pts nw ne sw se]; cbn [insertChildren].
  - intros [= <- <-]. apply grows_refl.
  - destruct (ins nw p) as [[[|] nw']|] eqn:E1; try discriminate;
      apply H in E1.
    { intros [= <- <-]. cbn. auto 7 using grows_refl. }
    destruct (ins ne p) as [[[|] ne']|] eqn:E2; try discriminate;
      apply H in E2.
    { intros [= <- <-]. cbn. auto 7 using grows_refl. }
    destruct (ins sw p) as [[[|] sw']|] eqn:E3; try discriminate;
      apply H in E3.
    { intros [= <- <-]. cbn. auto 7 using grows_refl. }
    destruct (ins se p) as [[r4 se']|] eqn:E4; try discriminate;
      apply H in E4.
    intros [= <- <-]. cbn. auto 7.
Qed.

Lemma grows_trans (a : QuadTree) :
  forall b c, grows a b -> grows b c -> grows a c.
Proof.
  induction a as [ba ca pa|ba ca pa nw IHnw ne IHne sw IHsw se IHse];
    intros b c Hab Hbc.
  - cbn in *. destruct Hab as [<- <-].
    destruct b as [bb cb pb|bb cb pb ? ? ? ?]; cbn in *.
    + exact Hbc.
    + destruct c as [|bc cc pc ? ? ? ?]; [contradiction|]. cbn. tauto.
  - destruct b as [|bb cb pb nwb neb swb seb]; [contradiction|].
    destruct c as [|bc cc pc nwc nec swc sec]; [contradiction|].
    cbn in *.
    destruct Hab as (-> & -> & H1 & H2 & H3 & H4).
    destruct Hbc as (-> & -> & G1 & G2 & G3 & G4).
    eauto 10.
Qed.

Lemma redistribute_grows
    (ins : QuadTree -> Point.t -> result (bool * QuadTree))
    (oldPoints : list Point.t) :
  growsSpec ins ->
  forall qt qt', redistribute ins qt oldPoints = Some qt' -> grows qt qt'.
Proof.
  intro H. induction oldPoints as [|pt rest IH]; intros qt qt'; cbn.
  - intros [= <-]. apply grows_refl.
  - destruct (insertChildren ins qt pt) as [[r qt1]|] eqn:E; [|discriminate].
    intro G. eapply grows_trans; [|exact (IH _ _ G)].
    exact (insertChildren_grows ins qt qt1 pt r H E).
Qed.

Lemma grows_root (qt qt' : QuadTree) :
  grows qt qt' -> boundary qt' = boundary qt /\ capacity qt' = capacity qt.
Proof.
  destruct qt; cbn; [tauto|]. destruct qt'; [contradiction|]. cbn. tauto.
Qed.

Lemma Insert_grows (fuel : nat) : growsSpec (Insert fuel).
Proof.
  induction fuel as [|fuel IH]; intros qt p r qt'; cbn [Insert].
  - discriminate.
  - destruct (negb (Contains (boundary qt) p)).
    { intros [= <- <-]. apply grows_refl. }
    destruct qt as [b c pts|b c pts nw ne sw se].
    + cbn [points capacity].
      destruct (_ >? _)%Z.
      * destruct (redistribute _ _ _) as [qt3|] eqn:E; [|discriminate].
        intros [= <- <-].
        apply (redistribute_grows _ _ IH) in E. apply grows_root in E.
        unfold subdivide, childBoundaries in E. cbn in E. exact E.
      * intros [= <- <-]. cbn. auto.
    + apply insertChildren_grows. exact IH.
Qed.

Lemma skeleton_Remove (qt : QuadTree) (p : Point.t) :
  skeleton (snd (Remove qt p)) = skeleton qt.
Proof.
  induction qt as [b c pts|b c pts nw IHnw ne IHne sw IHsw se IHse];
    cbn [Remove].
  - destruct (negb (Contains b p)); [reflexivity|].
    now destruct (_ =? _)%Z.
  - destruct (negb (Contains b p)); [reflexivity|].
    destruct (Remove nw p) as [[|] nw']; cbn [snd] in *.
    { cbn. now rewrite IHnw. }
    destruct (Remove ne p) as [[|] ne']; cbn [snd] in *.
    { cbn. now rewrite IHnw, IHne. }
    destruct (Remove sw p) as [[|] sw']; cbn [snd] in *.
    { cbn. now rewrite IHnw, IHne, IHsw. }
    destruct (Remove se p) as [r se']; cbn [snd] in *.
    cbn. now rewrite IHnw, IHne, IHsw, IHse.
Qed.

(** One axis that no coordinate lies on. *)
Lemma between_dead (lo hi x : float) :
  fkey lo = None \/ fkey hi = None \/ fkey lo = fkey hi ->
  between lo hi x = false.
Proof.
  intro H. destruct (between lo hi x) eqn:E; [exfalso|reflexivity].
  apply Geometry.between_true in E. destruct E as [H1 H2].
  apply leb_key in H1. apply ltb_key in H2.
  destruct H1 as (a & k & Ha & Hk & Hak), H2 as (k' & c & Hk' & Hc & Hkc).
  rewrite Hk in Hk'. injection Hk' as <-.
  destruct H as [H|[H|H]]; try congruence.
  rewrite Ha, Hc in H. injection H as <-.
  destruct a as [[? ?] ?], k as [[? ?] ?]; cbn in *; lia.
Qed.

Lemma Prim2SF_zero_of_eqb (w : float) :
  (w =? 0)%float = true -> exists s, Prim2SF w = S754_zero s.
Proof.
  rewrite FloatAxioms.eqb_spec.
  change (Prim2SF 0%float) with (S754_zero false).
  destruct (Prim2SF w) as [s|[|]| |[|] m e]; cbn; try discriminate. eauto.
Qed.

Lemma Prim2SF_nan_of_eqb (w : float) :
  (w =? w)%float = false -> fkey w = None.
Proof.
  intro H. destruct (fkey w) as [[[a1 a2] a3]|] eqn:E; [exfalso|reflexivity].
  apply not_true_iff_false in H. apply H. apply eqb_key.
  exists (a1, a2, a3), (a1, a2, a3). cbn. auto.
Qed.

(** The edges of a boundary whose half-extent is zero or not a number. *)
Lemma degenerate_edges (x w : float) :
  (w =? 0)%float = true \/ (w =? w)%float = false ->
  fkey (x - w) = None \/ fkey (x + w) = None \/ fkey (x - w) = fkey (x + w).
Proof.
  intros [H|H].
  - destruct (Prim2SF_zero_of_eqb w H) as [s Hs]. right. right.
    exact (Termination.zero_width_key x w s Hs).
  - left. apply Termination.nan_width_key.
    apply Prim2SF_nan_of_eqb in H. unfold fkey in H.
    destruct (Prim2SF w) as [?|[|]| |[|] ? ?]; cbn in H; congruence.
Qed.

End Structure.

(** ** The tree *)

Import Structure.

(** X1. On a reachable tree every entry of a bucket lies within the
    boundary of its node and of every node above it, the root included;
    its coordinates are therefore numbers. *)
Theorem stored_points_within_bounds (qt : QuadTree) :
  reachable qt ->
  bucketsWithin qt /\
  (forall p, In p (allPoints qt) ->
             Contains (boundary qt) p = true /\
             (Point.X p =? Point.X p)%float = true /\
             (Point.Y p =? Point.Y p)%float = true).
Proof.
  intro H. apply reachable_inv in H. split; [now apply inv_bucketsWithin|].
  intros p Hp. pose proof (inv_within qt H) as W. unfold within in W.
  rewrite Forall_forall in W. specialize (W p Hp). split; [exact W|].
  apply Contains_true in W. destruct W as [[HX _] [HY _]].
  split; eapply F64Facts.eqb_refl_leb; eassumption.
Qed.

Lemma stored_points_within_bounds_witness :
  reachable Ex.qt5 /\ bucketsWithin Ex.qt5.
Proof.
  assert (H : reachable Ex.qt5) by reach_tests.
  split; [exact H|]. exact (proj1 (stored_points_within_bounds Ex.qt5 H)).
Defined.

(** X2. On a reachable tree every node has the capacity of the root,
    which is at least 1, and the four children of every internal node
    have the boundaries that [subdivide] computes from the node's. *)
Theorem nodes_keep_geometry (qt : QuadTree) :
  reachable qt -> (1 <= capacity qt)%Z /\ subdivided (capacity qt) qt.
Proof.
  intro H. apply reachable_inv in H.
  split; [now apply inv_capacity|now apply inv_geometry].
Qed.

Lemma nodes_keep_geometry_witness :
  reachable Ex.dup3 /\ (1 <= capacity Ex.dup3)%Z /\
  subdivided (capacity Ex.dup3) Ex.dup3.
Proof.
  assert (H : reachable Ex.dup3) by reach_tests.
  split; [exact H|]. exact (nodes_keep_geometry Ex.dup3 H).
Defined.

(** X3. A call of [Insert] adds nothing but its argument: on a reachable
    tree every entry stored after the call is the inserted point or was
    stored before, no entry is duplicated, and the number of entries
    grows by one at most. *)
Theorem Insert_adds_only_the_point (qt qt' : QuadTree) (p : Point.t)
    (fuel : nat) (r : bool) :
  reachable qt -> Insert fuel qt p = Some (r, qt') ->
  submset (allPoints qt') (p :: allPoints qt) /\
  (forall e, In e (allPoints qt') -> e = p \/ In e (allPoints qt)) /\
  (length (allPoints qt') <= S (length (allPoints qt)))%nat.
Proof.
  intros H E. apply reachable_inv in H.
  destruct (Insert_post fuel qt p r qt' H E) as [_ _ _ _ _ P _ _].
  assert (Q : submset (allPoints qt') (p :: allPoints qt)).
  { destruct r; [exact P|]. destruct P as [d Hd]. exists (p :: d).
    rewrite <- Permutation_middle. now apply perm_skip. }
  split; [exact Q|]. split.
  - intros e He. apply (submset_In _ _ e Q) in He. destruct He; auto.
  - exact (submset_length _ _ Q).
Qed.

Lemma Insert_adds_only_the_point_witness :
  (reachable Ex.dup2 /\ Insert 64 Ex.dup2 Ex.dup = Some (true, Ex.dup3)) /\
  (length (allPoints Ex.dup3) <= S (length (allPoints Ex.dup2)))%nat.
Proof.
  assert (H : reachable Ex.dup2) by reach_tests.
  assert (E : Insert 64 Ex.dup2 Ex.dup = Some (true, Ex.dup3))
    by (vm_compute; reflexivity).
  split; [auto|].
  exact (proj2 (proj2 (Insert_adds_only_the_point Ex.dup2 Ex.dup3 Ex.dup 64 true H E))).
Defined.

(** X4. [Insert] returns on every tree and for every point: the nesting
    of its calls is bounded, because each subdivision halves the
    half-width and a half-width that has become zero accepts no point.
    From some depth of nested calls on the model gives one and the same
    answer. *)
Theorem Insert_terminates (qt : QuadTree) (p : Point.t) :
  exists fuel r qt',
    forall fuel', (fuel <= fuel')%nat -> Insert fuel' qt p = Some (r, qt').
Proof. exact (Insert_total qt p). Qed.

(** X5. [Remove] changes no node: the tree after the call has the nodes,
    boundaries and capacities it had before, whether an entry was taken
    out or not.  An internal node whose buckets have all become empty
    stays internal. *)
Theorem Remove_keeps_structure (qt : QuadTree) (p : Point.t) :
  skeleton (snd (Remove qt p)) = skeleton qt.
Proof. apply skeleton_Remove. Qed.

(** X6. [Insert] destroys no node: every node of the tree before the call
    is a node of the tree after it, at the same place, with the same
    boundary and capacity; nodes are only added below leaves. *)
Theorem Insert_keeps_nodes (qt qt' : QuadTree) (p : Point.t) (fuel : nat)
    (r : bool) :
  Insert fuel qt p = Some (r, qt') -> grows qt qt'.
Proof. apply Insert_grows. Qed.

Lemma Insert_keeps_nodes_witness :
  Insert 64 Ex.qt2 Ex.p3 = Some (true, Ex.qt3) /\ grows Ex.qt2 Ex.qt3.
Proof.
  assert (E : Insert 64 Ex.qt2 Ex.p3 = Some (true, Ex.qt3))
    by (vm_compute; reflexivity).
  split; [exact E|].
  exact (Insert_keeps_nodes Ex.qt2 Ex.qt3 Ex.p3 64 true E).
Defined.

(** X7. On a reachable tree a query of the root's own boundary returns
    every stored point. *)
Theorem Query_world_returns_all (qt : QuadTree) :
  reachable qt -> snd (Query qt (boundary qt)) = allPoints qt.
Proof.
  intro H. apply reachable_inv in H. unfold Query.
  rewrite queryRecursive_found by exact H. cbn [app].
  apply filter_within. now apply inv_within.
Qed.

Lemma Query_world_returns_all_witness :
  reachable Ex.qt5 /\ snd (Query Ex.qt5 (boundary Ex.qt5)) = allPoints Ex.qt5.
Proof.
  assert (H : reachable Ex.qt5) by reach_tests.
  split; [exact H|]. exact (Query_world_returns_all Ex.qt5 H).
Defined.

(** X8. A query after an insertion sees the inserted point: when [Insert]
    returned true on a reachable tree and the subdivisions of the result
    are exact, a query returns what it returned before the call, and the
    inserted point if the range contains it. *)
Theorem Insert_then_Query (qt qt' : QuadTree) (p : Point.t) (fuel : nat)
    (rangeRect : Boundary.t) :
  reachable qt -> Insert fuel qt p = Some (true, qt') ->
  exactTree qt' = true ->
  Permutation (snd (Query qt' rangeRect))
              (if Contains rangeRect p then p :: snd (Query qt rangeRect)
               else snd (Query qt rangeRect)).
Proof.
  intros H E Hx. apply reachable_inv in H.
  destruct (Insert_post fuel qt p true qt' H E) as [I _ _ _ T _ _ _].
  destruct (Insert_exact fuel qt p true qt' H Hx (T eq_refl) E) as [_ HP].
  unfold Query. rewrite !queryRecursive_found by assumption. cbn [app].
  rewrite (filter_perm _ _ _ HP). cbn [filter].
  now destruct (Contains rangeRect p).
Qed.

Lemma Insert_then_Query_witness :
  (reachable Ex.qt4 /\ Insert 64 Ex.qt4 Ex.p5 = Some (true, Ex.qt5) /\
   exactTree Ex.qt5 = true) /\
  Permutation (snd (Query Ex.qt5 Ex.searchNE))
              (Ex.p5 :: snd (Query Ex.qt4 Ex.searchNE)).
Proof.
  assert (H : reachable Ex.qt4) by reach_tests.
  assert (E : Insert 64 Ex.qt4 Ex.p5 = Some (true, Ex.qt5))
    by (vm_compute; reflexivity).
  assert (X : exactTree Ex.qt5 = true) by (vm_compute; reflexivity).
  split; [auto|].
  exact (Insert_then_Query Ex.qt4 Ex.qt5 Ex.p5 64 Ex.searchNE H E X).
Defined.

(** X9. [Remove] undoes [Insert] on the contents, not on the structure:
    when a point whose payload is [==] to itself, and that no stored
    entry equals, is inserted (the call returns true and the subdivisions
    of the result are exact) and then removed, [Remove] returns true and
    the stored points are those before the insertion; the nodes that the
    insertion created remain. *)
Theorem Insert_Remove_round_trip (qt qt1 : QuadTree) (p : Point.t)
    (fuel : nat) :
  reachable qt -> matchCount p (allPoints qt) = 0%nat ->
  Payload_eqb (Point.Data p) (Point.Data p) = true ->
  Insert fuel qt p = Some (true, qt1) -> exactTree qt1 = true ->
  fst (Remove qt1 p) = true /\
  Permutation (allPoints (snd (Remove qt1 p))) (allPoints qt) /\
  skeleton (snd (Remove qt1 p)) = skeleton qt1.
Proof.
  intros H Hnone HD E Hx. apply reachable_inv in H.
  destruct (Insert_post fuel qt p true qt1 H E) as [I _ _ _ T _ _ _].
  destruct (Insert_exact fuel qt p true qt1 H Hx (T eq_refl) E) as [_ HP].
  assert (Hpp : exactMatch p p = true)
    by exact (exactMatch_refl _ p (T eq_refl) HD).
  assert (Hr : fst (Remove qt1 p) = true).
  { apply (Remove_true_iff qt1 p I). exists p. split; [|exact Hpp].
    eapply Permutation_in; [symmetry; exact HP|]. now left. }
  split; [exact Hr|]. split; [|apply skeleton_Remove].
  pose proof (Remove_post qt1 p I) as [_ _ _ _ R _].
  destruct (R Hr) as (e & He & HQ).
  assert (Hin : In e (p :: allPoints qt)).
  { eapply Permutation_in; [exact HP|].
    eapply Permutation_in; [symmetry; exact HQ|]. now left. }
  destruct Hin as [<-|Hin].
  - apply Permutation_cons_inv with (a := p).
    now rewrite <- HQ, <- HP.
  - rewrite matchCount_zero in Hnone. rewrite (Hnone e Hin) in He. discriminate.
Qed.

Lemma Insert_Remove_round_trip_witness :
  (reachable Ex.qt2 /\ matchCount Ex.p3 (allPoints Ex.qt2) = 0%nat /\
   Payload_eqb (Point.Data Ex.p3) (Point.Data Ex.p3) = true /\
   Insert 64 Ex.qt2 Ex.p3 = Some (true, Ex.qt3) /\ exactTree Ex.qt3 = true) /\
  fst (Remove Ex.qt3 Ex.p3) = true /\
  Permutation (allPoints (snd (Remove Ex.qt3 Ex.p3))) (allPoints Ex.qt2) /\
  skeleton (snd (Remove Ex.qt3 Ex.p3)) = skeleton Ex.qt3.
Proof.
  assert (H : reachable Ex.qt2) by reach_tests.
  assert (N : matchCount Ex.p3 (allPoints Ex.qt2) = 0%nat)
    by (vm_compute; reflexivity).
  assert (E : Insert 64 Ex.qt2 Ex.p3 = Some (true, Ex.qt3))
    by (vm_compute; reflexivity).
  assert (X : exactTree Ex.qt3 = true) by (vm_compute; reflexivity).
  assert (D : Payload_eqb (Point.Data Ex.p3) (Point.Data Ex.p3) = true)
    by (vm_compute; reflexivity).
  split; [auto|].
  exact (Insert_Remove_round_trip Ex.qt2 Ex.qt3 Ex.p3 64 H N D E X).
Defined.

(** X10. A query after a successful removal misses the removed entry and
    nothing else: what the query returned before is what it returns
    after, and the removed entry if the range contains the point. *)
Theorem Remove_then_Query (qt : QuadTree) (p : Point.t)
    (rangeRect : Boundary.t) :
  reachable qt -> fst (Remove qt p) = true ->
  exists e,
    exactMatch e p = true /\
    Permutation (snd (Query qt rangeRect))
                (if Contains rangeRect p
                 then e :: snd (Query (snd (Remove qt p)) rangeRect)
                 else snd (Query (snd (Remove qt p)) rangeRect)).
Proof.
  intros H Hr. apply reachable_inv in H.
  pose proof (Remove_post qt p H) as [I _ _ _ R _].
  destruct (R Hr) as (e & He & HP). exists e. split; [exact He|].
  unfold Query. rewrite !queryRecursive_found by assumption. cbn [app].
  rewrite (filter_perm _ _ _ HP). cbn [filter].
  rewrite (Contains_exactMatch rangeRect e p He).
  now destruct (Contains rangeRect p).
Qed.

Lemma Remove_then_Query_witness :
  (reachable Ex.qt5 /\ fst (Remove Ex.qt5 Ex.p2) = true) /\
  exists e,
    exactMatch e Ex.p2 = true /\
    Permutation (snd (Query Ex.qt5 Ex.searchNE))
                (if Contains Ex.searchNE Ex.p2
                 then e :: snd (Query (snd (Remove Ex.qt5 Ex.p2)) Ex.searchNE)
                 else snd (Query (snd (Remove Ex.qt5 Ex.p2)) Ex.searchNE)).
Proof.
  assert (H : reachable Ex.qt5) by reach_tests.
  assert (E : fst (Remove Ex.qt5 Ex.p2) = true) by (vm_compute; reflexivity).
  split; [auto|].
  exact (Remove_then_Query Ex.qt5 Ex.p2 Ex.searchNE H E).
Defined.

(** X11. A point one of whose coordinates is not a number is accepted by
    no boundary: on every tree [Insert] returns false for it and leaves
    the tree as it was, and [Remove] returns false. *)
Theorem NaN_point_rejected (qt : QuadTree) (p : Point.t) (fuel : nat) :
  (Point.X p =? Point.X p)%float = false \/
  (Point.Y p =? Point.Y p)%float = false ->
  Contains (boundary qt) p = false /\
  Insert (S fuel) qt p = Some (false, qt) /\
  Remove qt p = (false, qt).
Proof.
  intro Hnan.
  assert (Hc : Contains (boundary qt) p = false).
  { destruct (Contains (boundary qt) p) eqn:E; [exfalso|reflexivity].
    apply Contains_true in E. destruct E as [[HX _] [HY _]].
    apply F64Facts.eqb_refl_leb in HX, HY.
    destruct Hnan; congruence. }
  split; [exact Hc|]. split; [now apply Insert_outside|].
  destruct qt; cbn [Remove boundary] in *; now rewrite Hc.
Qed.

Lemma NaN_point_rejected_witness :
  (Point.X (Point.mk nan 0 PNil) =? Point.X (Point.mk nan 0 PNil))%float = false /\
  Insert 64 Ex.qt5 (Point.mk nan 0 PNil) = Some (false, Ex.qt5).
Proof.
  assert (H : (Point.X (Point.mk nan 0 PNil) =? Point.X (Point.mk nan 0 PNil))%float
              = false) by (vm_compute; reflexivity).
  split; [exact H|].
  exact (proj1 (proj2 (NaN_point_rejected Ex.qt5 (Point.mk nan 0 PNil) 63
                                          (or_introl H)))).
Defined.

(** X12. [NewQuadTree] takes any boundary.  A tree whose half-width or
    half-height is zero or not a number accepts no point: every [Insert]
    returns false. *)
Theorem degenerate_world_rejects (qt : QuadTree) (p : Point.t) (fuel : nat) :
  (Boundary.Width (boundary qt) =? 0)%float = true \/
  (Boundary.Width (boundary qt) =? Boundary.Width (boundary qt))%float = false \/
  (Boundary.Height (boundary qt) =? 0)%float = true \/
  (Boundary.Height (boundary qt) =? Boundary.Height (boundary qt))%float = false ->
  Contains (boundary qt) p = false /\
  Insert (S fuel) qt p = Some (false, qt).
Proof.
  intro H.
  assert (Hc : Contains (boundary qt) p = false).
  { rewrite Contains_between. unfold minX, maxX, minY, maxY.
    destruct H as [H|[H|[H|H]]].
    - rewrite (between_dead _ _ _ (degenerate_edges _ _ (or_introl H))).
      reflexivity.
    - rewrite (between_dead _ _ _ (degenerate_edges _ _ (or_intror H))).
      reflexivity.
    - rewrite (between_dead _ _ (Point.Y p) (degenerate_edges _ _ (or_introl H))).
      apply andb_false_r.
    - rewrite (between_dead _ _ (Point.Y p) (degenerate_edges _ _ (or_intror H))).
      apply andb_false_r. }
  split; [exact Hc|]. now apply Insert_outside.
Qed.

Lemma degenerate_world_rejects_witness :
  (Boundary.Width (boundary (NewQuadTree (Boundary.mk 0 0 0 10) 4)) =? 0)%float = true /\
  Insert 64 (NewQuadTree (Boundary.mk 0 0 0 10) 4) (Point.mk 0 0 PNil) =
  Some (false, NewQuadTree (Boundary.mk 0 0 0 10) 4).
Proof.
  assert (H : (Boundary.Width (boundary (NewQuadTree (Boundary.mk 0 0 0 10) 4)) =? 0)%float
              = true) by (vm_compute; reflexivity).
  split; [exact H|].
  exact (proj2 (degenerate_world_rejects (NewQuadTree (Boundary.mk 0 0 0 10) 4)
                                         (Point.mk 0 0 PNil) 63 (or_introl H))).
Defined.

(** ** The callers in [main.go] *)

Module MainFacts.
Import F64Facts Main.
Open Scope float_scope.

Lemma wrapLon_cases (x : float) :
  wrapLon x = if 180 <? x then -180 else if x <? -180 then 180 else x.
Proof. unfold wrapLon. now destruct (180 <? x). Qed.

Lemma wrapLat_cases (y : float) :
  wrapLat y = if 90 <? y then -90 else if y <? -90 then 90 else y.
Proof. unfold wrapLat. now destruct (90 <? y). Qed.

(** A number that is neither above [hi] nor below [lo] lies between
    them. *)
Lemma not_outside (lo hi x : float) :
  (x =? x) = true -> (lo =? lo) = true -> (hi =? hi) = true ->
  (hi <? x) = false -> (x <? lo) = false ->
  (lo <=? x) = true /\ (x <=? hi) = true.
Proof.
  intros Hx Hlo Hhi H1 H2.
  rewrite (ltb_or_leb hi x Hhi Hx) in H1.
  rewrite (ltb_or_leb x lo Hx Hlo) in H2.
  apply negb_false_iff in H1, H2. auto.
Qed.

(** Below the lower limit is not above the upper one. *)
Lemma below_not_above (lo hi x : float) :
  (lo <? hi) = true -> (x <? lo) = true -> (hi <? x) = false.
Proof. intros. float_keys. Qed.

(** A payload is [==] to a string exactly when it is that string. *)
Lemma Payload_eqb_eq (a : Payload) (s : String.string) :
  Payload_eqb a (PString s) = true <-> a = PString s.
Proof.
  destruct a; cbn; try (split; [discriminate|congruence]).
  rewrite String.eqb_eq. split; congruence.
Qed.

Lemma Payload_eqb_eq_l (s : String.string) (b : Payload) :
  Payload_eqb (PString s) b = true <-> b = PString s.
Proof.
  destruct b; cbn; try (split; [discriminate|congruence]).
  rewrite String.eqb_eq. split; congruence.
Qed.

Lemma filter_length_zero (f : Point.t -> bool) (l : list Point.t) :
  length (filter f l) = 0%nat -> forall e, In e l -> f e = false.
Proof.
  induction l as [|x l IH]; cbn; [intros _ e []|].
  destruct (f x) eqn:E; cbn; [discriminate|].
  intros H e [<-|He]; auto.
Qed.

Lemma filter_length_pos (f : Point.t -> bool) (l : list Point.t) (e : Point.t) :
  In e l -> f e = true -> (1 <= length (filter f l))%nat.
Proof.
  intros He Hf.
  assert (G : In e (filter f l)) by (apply filter_In; auto).
  destruct (filter f l); [destruct G|cbn; lia].
Qed.

Lemma In_responses (l : list Point.t) (d : DriverResponse) :
  In d (responses l) <->
  exists p, In p l /\ Point.Data p = PString (ID d) /\
            Lat d = Point.Y p /\ Lon d = Point.X p.
Proof.
  induction l as [|q l IH]; cbn [responses].
  - split; [intros []|intros (p & [] & _)].
  - destruct (Point.Data q) as [|id|n|f] eqn:E.
    + rewrite IH. split; intros (p & Hp & H); exists p; [cbn; tauto|].
      destruct Hp as [<-|Hp]; [|tauto]. destruct H as (H & _). congruence.
    + cbn [In]. rewrite IH. split.
      * intros [<-|(p & Hp & H)]; [exists q; cbn; auto|exists p; cbn; tauto].
      * intros (p & [<-|Hp] & H1 & H2 & H3).
        -- left. destruct d as [i la lo]. cbn in *. congruence.
        -- right. exists p. auto.
    + rewrite IH. split; intros (p & Hp & H); exists p; [cbn; tauto|].
      destruct Hp as [<-|Hp]; [|tauto]. destruct H as (H & _). congruence.
    + rewrite IH. split; intros (p & Hp & H); exists p; [cbn; tauto|].
      destruct Hp as [<-|Hp]; [|tauto]. destruct H as (H & _). congruence.
Qed.

Lemma boundary_skeleton (qt : QuadTree) : boundary (skeleton qt) = boundary qt.
Proof. now destruct qt. Qed.

Lemma boundary_Remove (qt : QuadTree) (p : Point.t) :
  boundary (snd (Remove qt p)) = boundary qt.
Proof.
  rewrite <- (boundary_skeleton (snd (Remove qt p))), Structure.skeleton_Remove.
  apply boundary_skeleton.
Qed.

End MainFacts.

Import Main MainFacts.

(** X13. The simulation keeps every coordinate that is a number within
    the closed range of the world: the longitude that the loop of
    [simulateDriver] computes lies in [-180, 180] and the latitude in
    [-90, 90], both ends included. *)
Theorem wrap_in_range (x y : float) :
  (x =? x)%float = true -> (y =? y)%float = true ->
  ((-180 <=? wrapLon x)%float = true /\ (wrapLon x <=? 180)%float = true) /\
  ((-90 <=? wrapLat y)%float = true /\ (wrapLat y <=? 90)%float = true).
Proof.
  intros Hx Hy. rewrite wrapLon_cases, wrapLat_cases. split.
  - destruct (180 <? x)%float eqn:E1; [split; reflexivity|].
    destruct (x <? -180)%float eqn:E2; [split; reflexivity|].
    now apply not_outside.
  - destruct (90 <? y)%float eqn:E1; [split; reflexivity|].
    destruct (y <? -90)%float eqn:E2; [split; reflexivity|].
    now apply not_outside.
Qed.

Lemma wrap_in_range_witness :
  ((181 =? 181)%float = true /\ (-91 =? -91)%float = true) /\
  ((-180 <=? wrapLon 181)%float = true /\ (wrapLon 181 <=? 180)%float = true) /\
  ((-90 <=? wrapLat (-91))%float = true /\ (wrapLat (-91) <=? 90)%float = true).
Proof.
  assert (H1 : (181 =? 181)%float = true) by reflexivity.
  assert (H2 : (-91 =? -91)%float = true) by reflexivity.
  split; [auto|]. exact (wrap_in_range 181 (-91) H1 H2).
Defined.

(** X14. A driver that crosses the western or the southern border of the
    world leaves the tree: the loop puts it at longitude 180 or latitude
    90, which lie on the upper edges that [Contains] excludes, so that
    the [Insert] of the turn returns false.  After the turn the tree is
    the tree after the [Remove], and the new point is not stored. *)
Theorem crossing_west_or_south_loses_driver (fuel : nat)
    (driverID : String.string) (tree : QuadTree) (currentPoint : Point.t)
    (u1 u2 : float) :
  reachable tree -> boundary tree = worldBoundary ->
  (Point.X currentPoint + (u1 - 0.5) * tenth <? -180)%float = true \/
  (Point.Y currentPoint + (u2 - 0.5) * tenth <? -90)%float = true ->
  Insert (S fuel) (snd (Remove tree currentPoint))
         (nextPoint driverID currentPoint u1 u2) =
  Some (false, snd (Remove tree currentPoint)) /\
  moveDriver (S fuel) driverID tree currentPoint u1 u2 =
  Some (snd (Remove tree currentPoint), nextPoint driverID currentPoint u1 u2) /\
  ~ In (nextPoint driverID currentPoint u1 u2)
       (allPoints (snd (Remove tree currentPoint))).
Proof.
  intros H HB Hcross.
  assert (Hc : Contains worldBoundary (nextPoint driverID currentPoint u1 u2) = false).
  { apply Contains_upper_edge. unfold nextPoint. cbn [Point.X Point.Y].
    destruct Hcross as [Hx|Hy]; [left|right].
    - rewrite wrapLon_cases.
      rewrite (below_not_above (-180) 180 _ eq_refl Hx), Hx. reflexivity.
    - rewrite wrapLat_cases.
      rewrite (below_not_above (-90) 90 _ eq_refl Hy), Hy. reflexivity. }
  assert (HB' : boundary (snd (Remove tree currentPoint)) = worldBoundary)
    by (rewrite boundary_Remove; exact HB).
  assert (E : Insert (S fuel) (snd (Remove tree currentPoint))
                     (nextPoint driverID currentPoint u1 u2) =
              Some (false, snd (Remove tree currentPoint)))
    by (apply Insert_outside; rewrite HB'; exact Hc).
  split; [exact E|]. split.
  - unfold moveDriver. now rewrite E.
  - intro Hin.
    pose proof (reachable_inv _ (reach_remove tree currentPoint H)) as I.
    pose proof (inv_within _ I) as W. unfold within in W.
    rewrite Forall_forall in W. specialize (W _ Hin).
    rewrite HB', Hc in W. discriminate.
Qed.

Lemma crossing_west_or_south_loses_driver_witness :
  (reachable Ex.sim1 /\ boundary Ex.sim1 = worldBoundary /\
   (Point.X Ex.driverA + (0 - 0.5) * tenth <? -180)%float = true) /\
  moveDriver 64 Ex.driver0 Ex.sim1 Ex.driverA 0 0.5 =
  Some (snd (Remove Ex.sim1 Ex.driverA), Point.mk 180 0 (PString Ex.driver0)).
Proof.
  assert (H : reachable Ex.sim1).
  { apply (reach_insert Main.tree0 _ 64 Ex.driverA true);
      [exact (reach_new worldBoundary 4)|vm_compute; reflexivity]. }
  assert (B : boundary Ex.sim1 = worldBoundary) by reflexivity.
  assert (C : (Point.X Ex.driverA + (0 - 0.5) * tenth <? -180)%float = true)
    by (vm_compute; reflexivity).
  split; [auto|].
  exact (proj1 (proj2 (crossing_west_or_south_loses_driver
                         63 Ex.driver0 Ex.sim1 Ex.driverA 0 0.5 H B (or_introl C)))).
Defined.

(** X15. The loop of [simulateDriver] keeps at most one entry per driver
    in the tree: if before a turn every stored entry with the driver's
    identifier is the current point, and there is at most one, the same
    holds after the turn for the new point; and it holds after the first
    [Insert] into a tree that stores no entry with that identifier. *)
Theorem one_entry_per_driver (driverID : String.string) (tree : QuadTree) :
  reachable tree ->
  (forall fuel currentPoint r tree',
      (forall e, In e (allPoints tree) -> Point.Data e <> PString driverID) ->
      Point.Data currentPoint = PString driverID ->
      Insert fuel tree currentPoint = Some (r, tree') ->
      reachable tree' /\ tracked driverID tree' currentPoint) /\
  (forall fuel currentPoint u1 u2 tree' newPoint,
      tracked driverID tree currentPoint ->
      moveDriver fuel driverID tree currentPoint u1 u2 = Some (tree', newPoint) ->
      reachable tree' /\ tracked driverID tree' newPoint).
Proof.
  intro H.
  set (idp := fun e : Point.t => Payload_eqb (Point.Data e) (PString driverID)).
  assert (Step : forall fuel t p r t',
             reachable t -> Point.Data p = PString driverID ->
             length (filter idp (allPoints t)) = 0%nat ->
             Insert fuel t p = Some (r, t') ->
             reachable t' /\ tracked driverID t' p).
  { intros fuel t p r t' Ht Hp Hz E.
    split; [exact (reach_insert t t' fuel p r Ht E)|].
    destruct (Insert_post fuel t p r t' (reachable_inv t Ht) E)
      as [_ _ _ _ _ P _ _].
    assert (Q : submset (allPoints t') (p :: allPoints t)).
    { destruct r; [exact P|]. destruct P as [d Hd]. exists (p :: d).
      rewrite <- Permutation_middle. now apply perm_skip. }
    split; [exact Hp|]. split.
    - intros e He Hid. apply (Structure.submset_In _ _ e Q) in He.
      destruct He as [<-|He]; [reflexivity|exfalso].
      pose proof (filter_length_zero idp _ Hz e He) as G. unfold idp in G.
      rewrite Hid, Payload_eqb_string in G. discriminate.
    - pose proof (Structure.submset_filter_length idp _ _ Q) as L.
      cbn [filter] in L. fold idp.
      destruct (idp p); cbn [length] in L; lia. }
  split.
  - intros fuel currentPoint r tree' Hnone Hp E.
    apply (Step fuel tree currentPoint r tree' H Hp); [|exact E].
    destruct (filter idp (allPoints tree)) as [|e l] eqn:F; [reflexivity|exfalso].
    assert (G : In e (filter idp (allPoints tree))) by (rewrite F; now left).
    apply filter_In in G. destruct G as [G1 G2]. unfold idp in G2.
    apply Payload_eqb_eq in G2. exact (Hnone e G1 G2).
  - intros fuel currentPoint u1 u2 tree' newPoint (T1 & T2 & T3).
    unfold moveDriver.
    destruct (Insert fuel _ _) as [[r t2]|] eqn:E; [|discriminate].
    intros [= <- <-].
    apply (Step fuel (snd (Remove tree currentPoint))
                (nextPoint driverID currentPoint u1 u2) r t2
                (reach_remove tree currentPoint H) eq_refl);
      [|exact E].
    pose proof (reachable_inv tree H) as I.
    pose proof (Remove_post tree currentPoint I) as [_ _ _ F R _].
    fold idp in T3.
    destruct (fst (Remove tree currentPoint)) eqn:Hr.
    + destruct (R eq_refl) as (e & He & HP).
      assert (Hid : idp e = true).
      { unfold exactMatch in He. rewrite !andb_true_iff in He.
        destruct He as [[He _] _]. unfold idp. now rewrite <- T1. }
      apply (filter_perm idp) in HP. apply Permutation_length in HP.
      cbn [filter] in HP. rewrite Hid in HP. cbn [length] in HP. lia.
    + destruct (F eq_refl) as [-> N].
      destruct (filter idp (allPoints tree)) as [|e l] eqn:Fl; [reflexivity|exfalso].
      assert (G : In e (filter idp (allPoints tree))) by (rewrite Fl; now left).
      apply filter_In in G. destruct G as [G1 G2]. unfold idp in G2.
      apply Payload_eqb_eq in G2. pose proof (T2 e G1 G2) as ->.
      pose proof (inv_within _ I) as W. unfold within in W.
      rewrite Forall_forall in W.
      specialize (N currentPoint G1).
      assert (HD : Payload_eqb (Point.Data currentPoint) (Point.Data currentPoint)
                   = true) by (rewrite T1; apply Payload_eqb_string).
      rewrite (exactMatch_refl _ _ (W _ G1) HD) in N. discriminate.
Qed.

(** X16. [handleFindNearby] answers 400 when a parameter does not parse,
    and otherwise 200 with one entry for each stored point that has a
    string payload and lies in the half-open box of half-extents 20
    around (lon, lat): the entry carries the payload as [ID], the point's
    [Y] as [Lat] and its [X] as [Lon].  Points with another payload are
    left out. *)
Theorem handleFindNearby_spec (tree : QuadTree) (lat lon : float) :
  reachable tree ->
  handleFindNearby tree None (Some lon) = None /\
  handleFindNearby tree (Some lat) None = None /\
  handleFindNearby tree (Some lat) (Some lon) =
  Some (responses (filter (Contains (Boundary.mk lon lat 20 20))
                          (allPoints tree))) /\
  (forall d,
      In d (responses (filter (Contains (Boundary.mk lon lat 20 20))
                              (allPoints tree))) <->
      exists p, In p (allPoints tree) /\
                Contains (Boundary.mk lon lat 20 20) p = true /\
                Point.Data p = PString (ID d) /\
                Lat d = Point.Y p /\ Lon d = Point.X p).
Proof.
  intro H. apply reachable_inv in H.
  split; [reflexivity|]. split; [reflexivity|]. split.
  - unfold handleFindNearby, Query.
    rewrite queryRecursive_found by exact H. reflexivity.
  - intro d. rewrite In_responses. split.
    + intros (p & Hp & G). apply filter_In in Hp. exists p. tauto.
    + intros (p & Hp & Hc & G). exists p. split; [|exact G].
      apply filter_In. auto.
Qed.

Lemma one_entry_per_driver_witness :
  reachable tree0 /\ tracked Ex.driver0 Ex.sim1 Ex.driverA.
Proof.
  assert (H : reachable tree0) by exact (reach_new worldBoundary 4).
  split; [exact H|].
  assert (N : forall e, In e (allPoints tree0) ->
                        Point.Data e <> PString Ex.driver0) by (intros e []).
  assert (E : Insert 64 tree0 Ex.driverA = Some (true, Ex.sim1))
    by (vm_compute; reflexivity).
  exact (proj2 (proj1 (one_entry_per_driver Ex.driver0 tree0 H)
                      64%nat Ex.driverA true Ex.sim1 N eq_refl E)).
Defined.

Lemma handleFindNearby_spec_witness :
  reachable Ex.sim1 /\
  handleFindNearby Ex.sim1 (Some 0%float) (Some (-170)%float) =
  Some [mkResponse Ex.driver0 0 (-179.96875)].
Proof.
  assert (H : reachable Ex.sim1).
  { apply (reach_insert Main.tree0 _ 64 Ex.driverA true);
      [exact (reach_new worldBoundary 4)|vm_compute; reflexivity]. }
  split; [exact H|].
  etransitivity;
    [exact (proj1 (proj2 (proj2 (handleFindNearby_spec Ex.sim1 0 (-170) H))))|].
  vm_compute. reflexivity.
Defined.

(** X18. The calls of other drivers do not disturb a driver's entry.
    The root's lock makes every call of [Insert] and [Remove] atomic, so
    that the turns of the drivers interleave call by call; a call for a
    point with another payload keeps what [simulateDriver] maintains for
    the driver.  [Remove] of such a point never takes the driver's entry
    out, and neither does [Insert] when the subdivisions of its result
    are exact. *)
Theorem other_drivers_keep_entry (driverID : String.string)
    (tree : QuadTree) (currentPoint p : Point.t) :
  reachable tree -> tracked driverID tree currentPoint ->
  Point.Data p <> PString driverID ->
  (tracked driverID (snd (Remove tree p)) currentPoint /\
   (In currentPoint (allPoints tree) ->
    In currentPoint (allPoints (snd (Remove tree p))))) /\
  (forall fuel r tree',
      Insert fuel tree p = Some (r, tree') ->
      tracked driverID tree' currentPoint /\
      (exactTree tree' = true -> In currentPoint (allPoints tree) ->
       In currentPoint (allPoints tree'))).
Proof.
  intros H (T1 & T2 & T3) Hp.
  pose proof (reachable_inv tree H) as I.
  set (idp := fun e : Point.t => Payload_eqb (Point.Data e) (PString driverID)) in *.
  assert (Hidp : idp p = false).
  { unfold idp. destruct (Payload_eqb _ _) eqn:E; [|reflexivity].
    apply Payload_eqb_eq in E. contradiction. }
  assert (Sub : forall t, submset (allPoints t) (allPoints tree) ->
                          tracked driverID t currentPoint).
  { intros t Q. split; [exact T1|]. split.
    - intros e He. apply T2. exact (Structure.submset_In _ _ e Q He).
    - fold idp. pose proof (Structure.submset_filter_length idp _ _ Q). lia. }
  split.
  - pose proof (Remove_post tree p I) as [_ _ _ F R _].
    destruct (fst (Remove tree p)) eqn:Hr.
    + destruct (R eq_refl) as (e & He & HP). split.
      * apply Sub. exists [e]. rewrite HP. symmetry. apply Permutation_cons_append.
      * intro Hin. apply (Permutation_in _ HP) in Hin.
        destruct Hin as [->|Hin]; [exfalso|exact Hin].
        unfold exactMatch in He. rewrite !andb_true_iff in He.
        destruct He as [[He _] _]. rewrite T1 in He.
        apply Payload_eqb_eq_l in He. contradiction.
    + destruct (F eq_refl) as [-> _]. split; [|auto].
      apply Sub. exists []. now rewrite app_nil_r.
  - intros fuel r tree' E.
    pose proof (Insert_post fuel tree p r tree' I E) as [_ _ _ Fl T P _ _].
    destruct r.
    + split.
      * split; [exact T1|]. split.
        -- intros e He Hid. apply (Structure.submset_In _ _ e P) in He.
           destruct He as [<-|He]; [contradiction|now apply T2].
        -- fold idp.
           pose proof (Structure.submset_filter_length idp _ _ P) as L.
           cbn [filter] in L. rewrite Hidp in L. lia.
      * intros Hx Hin.
        destruct (Insert_exact fuel tree p true tree' I Hx (T eq_refl) E) as [_ HP].
        eapply Permutation_in; [symmetry; exact HP|]. now right.
    + rewrite (Fl eq_refl). split; [|auto].
      apply Sub. exists []. now rewrite app_nil_r.
Qed.

Lemma other_drivers_keep_entry_witness :
  (reachable Ex.sim1 /\ tracked Ex.driver0 Ex.sim1 Ex.driverA /\
   Point.Data Ex.driverB <> PString Ex.driver0) /\
  tracked Ex.driver0 (snd (Remove Ex.sim1 Ex.driverB)) Ex.driverA.
Proof.
  assert (H : reachable Ex.sim1).
  { apply (reach_insert Main.tree0 _ 64 Ex.driverA true);
      [exact (reach_new worldBoundary 4)|vm_compute; reflexivity]. }
  assert (T : tracked Ex.driver0 Ex.sim1 Ex.driverA).
  { split; [reflexivity|]. split.
    - intros e [<-|[]] _. reflexivity.
    - vm_compute. apply le_n. }
  assert (D : Point.Data Ex.driverB <> PString Ex.driver0)
    by (intro X; discriminate X).
  split; [auto|].
  exact (proj1 (proj1 (other_drivers_keep_entry
                         Ex.driver0 Ex.sim1 Ex.driverA Ex.driverB H T D))).
Defined.

(** X17. A leaf of a reachable tree subdivides exactly when its bucket
    overflows: [Insert] of a point that the leaf contains appends the
    point and leaves the node a leaf while the bucket held fewer than
    [capacity] entries; when it held [capacity] entries the node becomes
    internal, with an empty bucket and the boundary and capacity it
    had. *)
Theorem subdivision_on_overflow (b : Boundary.t) (c : Z) (pts : list Point.t)
    (p : Point.t) (fuel : nat) (r : bool) (qt' : QuadTree) :
  reachable (Leaf b c pts) -> Contains b p = true ->
  Insert fuel (Leaf b c pts) p = Some (r, qt') ->
  r = true /\
  ((Z.of_nat (length pts) < c)%Z -> qt' = Leaf b c (pts ++ [p])) /\
  ((Z.of_nat (length pts) = c)%Z ->
   isLeaf qt' = false /\ points qt' = [] /\
   boundary qt' = b /\ capacity qt' = c).
Proof.
  intros H Hc E.
  pose proof (reachable_inv _ H) as I.
  split; [exact (Insert_leaf_true fuel (Leaf b c pts) qt' p r eq_refl Hc E)|].
  pose proof (Insert_post fuel (Leaf b c pts) p r qt' I E) as [I' B C _ _ _ _ _].
  destruct fuel as [|fuel]; [discriminate|]. cbn [Insert boundary] in E.
  rewrite Hc in E. cbn [negb points capacity] in E.
  rewrite length_app in E. cbn [length] in E. split.
  - intro Hlt.
    replace (Z.of_nat (length pts + 1) >? c)%Z with false in E
      by (symmetry; rewrite Z.gtb_ltb; apply Z.ltb_ge; lia).
    now injection E as _ <-.
  - intro Heq.
    replace (Z.of_nat (length pts + 1) >? c)%Z with true in E
      by (symmetry; rewrite Z.gtb_ltb; apply Z.ltb_lt; lia).
    destruct (redistribute _ _ _) as [qt3|] eqn:R; [|discriminate].
    injection E as _ <-.
    apply (redistribute_grows _ _ (Insert_grows fuel)) in R.
    unfold subdivide, childBoundaries in R. cbn in R.
    destruct qt3 as [|b3 c3 p3 ? ? ? ?]; [contradiction|].
    cbn in I'. destruct I' as (_ & -> & _). cbn in *. tauto.
Qed.

Lemma subdivision_on_overflow_witness :
  (reachable Ex.qt2 /\ Contains Ex.world Ex.p3 = true /\
   Insert 64 Ex.qt2 Ex.p3 = Some (true, Ex.qt3)) /\
  isLeaf Ex.qt3 = false /\ points Ex.qt3 = [].
Proof.
  assert (H : reachable (Leaf Ex.world 2 [Ex.p1; Ex.p2]))
    by (change (reachable Ex.qt2); reach_tests).
  assert (C : Contains Ex.world Ex.p3 = true) by (vm_compute; reflexivity).
  assert (E : Insert 64 (Leaf Ex.world 2 [Ex.p1; Ex.p2]) Ex.p3 = Some (true, Ex.qt3))
    by (vm_compute; reflexivity).
  split; [auto|].
  destruct (proj2 (proj2 (subdivision_on_overflow
                            Ex.world 2 [Ex.p1; Ex.p2] Ex.p3 64 true Ex.qt3 H C E))
                  eq_refl) as (L & P & _).
  split; [exact L|exact P].
Defined.
